(** * Cadence: signal bus and clocks

    A shallow embedding of [src/bus.ts], [src/clock/test-clock.ts],
    [src/clock/bridge.ts] and the tick-firing core of
    [src/clock/interval.ts], with the properties stated about them.

    Conventions of the embedding.
    - JavaScript numbers that hold milliseconds or counters are integers
      here ([Z] for times and drifts, [nat] for counters).
    - A function value (a handler) is its identity, a [nat]: [indexOf]
      compares handlers with [===].
    - An [async] function is a state transformer returning [Resolved] or
      [Rejected]; mutations made before a rejection stay in the state.
    - Code supplied by the user of the library (handlers, middleware, a
      custom transport, a store) is the environment.  Handlers and store
      methods are functions of the history of observable events; middleware
      and transports are small programs ([Prog]) over the single effect they
      are handed (their [next], their subscriber).  User code does not call
      back into the bus or the clock it is running under. *)

From Stdlib Require Import ZArith QArith Lia Lqa.
From stdpp Require Import ssreflect gmap strings list fin_maps pretty.

Open Scope Z_scope.

(** A thrown value, and the way a call (or an awaited promise) ends. *)
Definition Err := string.

Inductive Result (A : Type) :=
| Resolved (a : A)
| Rejected (e : Err).
Arguments Resolved {A} a.
Arguments Rejected {A} e.

(* ===================================================================== *)
(** * The signal bus ([src/bus.ts])                                        *)
(* ===================================================================== *)

Module Bus.

(** [BaseSignal]: the payload is opaque to the bus. *)
Record Signal := mkSignal {
  sig_type : string;
  sig_ts : Z;
  sig_id : string;
  sig_payload : Z
}.

Definition Handler := nat.

(** What an outside observer can see of one run. *)
Inductive Event :=
| EvSave (s : Signal)                         (* store.save(s) was called *)
| EvTransportEmit (s : Signal)                (* transport.emit(s) was called *)
| EvMarkAcked (id : string)                   (* store.markAcked(id) was called *)
| EvGetUnacked                                (* store.getUnacked() was called *)
| EvHandler (h : Handler) (s : Signal) (r : option Err)
                                              (* h(s) ran; [Some e]: it threw e *)
| EvOnError (s : Signal) (name : string) (e : Err)
                                              (* options.onError(s, name, e) *)
| EvUser (tag : string).                      (* a step of middleware or transport code *)

(** Code that is handed one callback ([next] for a middleware, the
    subscriber for a transport).  [Call k h] is
    [try { await callback(); k } catch (e) { h e }]; the plain
    [await callback(); k] is [Call k Throw]. *)
Inductive Prog :=
| Done
| Throw (e : Err)
| Log (tag : string) (k : Prog)
| Call (k : Prog) (h : Err -> Prog).

Definition Middleware := Signal -> Prog.

Record SignalStore := mkStore {
  save : Signal -> list Event -> option Err;
  markAcked : string -> list Event -> option Err;
  getUnacked : list Event -> Err + list Signal
}.

(** [SignalBusOptions] together with the behaviour of the handlers. *)
Record Options := mkOptions {
  transport : Signal -> Prog;
  store : SignalStore;
  handler_run : Handler -> Signal -> list Event -> option Err
}.

(** [createNoopStore] *)
Definition createNoopStore : SignalStore :=
  {| save := fun _ _ => None;
     markAcked := fun _ _ => None;
     getUnacked := fun _ => inr [] |}.

(** [createMemoryTransport], with the bus as its subscriber:
    [for (const handler of subscribers) await handler(signal)]. *)
Definition createMemoryTransport : Signal -> Prog :=
  fun _ => Call Done Throw.

(** The variables closed over by [createSignalBus].  [typeHandlers] maps a
    type to a reference into [arrays]: the unsubscribe closure of [on]
    keeps the array itself, also after [clear] has emptied the map. *)
Record State := mkState {
  typeHandlers : gmap string nat;
  arrays : list (list Handler);
  anyHandlers : list Handler;
  middlewareStack : list Middleware;
  emittedCount : nat;
  handledCount : nat;
  errorCount : nat;
  processing : nat;
  trace : list Event
}.

Definition M (A : Type) := State -> Result A * State.

Definition ret {A} (a : A) : M A := fun σ => (Resolved a, σ).
Definition raise {A} (e : Err) : M A := fun σ => (Rejected e, σ).
Definition bind {A B} (m : M A) (f : A -> M B) : M B :=
  fun σ => match m σ with
           | (Resolved a, σ') => f a σ'
           | (Rejected e, σ') => (Rejected e, σ')
           end.
Definition seq {A} (m : M unit) (k : M A) : M A := bind m (fun _ => k).

Notation "m >>> k" := (seq m k) (at level 60, right associativity).

Definition modify (f : State -> State) : M unit := fun σ => (Resolved tt, f σ).

Definition set_trace (f : list Event -> list Event) (σ : State) : State :=
  mkState (typeHandlers σ) (arrays σ) (anyHandlers σ) (middlewareStack σ)
          (emittedCount σ) (handledCount σ) (errorCount σ) (processing σ)
          (f (trace σ)).
Definition set_emitted (f : nat -> nat) (σ : State) : State :=
  mkState (typeHandlers σ) (arrays σ) (anyHandlers σ) (middlewareStack σ)
          (f (emittedCount σ)) (handledCount σ) (errorCount σ) (processing σ)
          (trace σ).
Definition set_handled (f : nat -> nat) (σ : State) : State :=
  mkState (typeHandlers σ) (arrays σ) (anyHandlers σ) (middlewareStack σ)
          (emittedCount σ) (f (handledCount σ)) (errorCount σ) (processing σ)
          (trace σ).
Definition set_errors (f : nat -> nat) (σ : State) : State :=
  mkState (typeHandlers σ) (arrays σ) (anyHandlers σ) (middlewareStack σ)
          (emittedCount σ) (handledCount σ) (f (errorCount σ)) (processing σ)
          (trace σ).
Definition set_processing (f : nat -> nat) (σ : State) : State :=
  mkState (typeHandlers σ) (arrays σ) (anyHandlers σ) (middlewareStack σ)
          (emittedCount σ) (handledCount σ) (errorCount σ) (f (processing σ))
          (trace σ).

Definition log (e : Event) : M unit := modify (set_trace (fun t => t ++ [e])).

(** Lift an outcome of user code into the monad. *)
Definition outcome (r : option Err) : M unit :=
  match r with
  | None => ret tt
  | Some e => raise e
  end.

(** The same, as the way the call ends. *)
Definition settled (r : option Err) : Result unit :=
  match r with
  | None => Resolved tt
  | Some e => Rejected e
  end.

(** [try { body; onOk } catch (err) { onErr err }] *)
Definition try_catch (body : M unit) (onOk : M unit) (onErr : Err -> M unit)
  : M unit :=
  fun σ => match body σ with
           | (Resolved _, σ') => onOk σ'
           | (Rejected e, σ') => onErr e σ'
           end.

(** Run user code against the callback it was handed. *)
Fixpoint run_prog (p : Prog) (callback : M unit) : M unit :=
  match p with
  | Done => ret tt
  | Throw e => raise e
  | Log tag k => log (EvUser tag) >>> run_prog k callback
  | Call k h =>
      fun σ => match callback σ with
               | (Resolved _, σ') => run_prog k callback σ'
               | (Rejected e, σ') => run_prog (h e) callback σ'
               end
  end.

(** [createSequentialExecutor().execute]:
    [processing++; try { await handler(signal) } finally { processing-- }] *)
Definition execute (o : Options) (h : Handler) (s : Signal) : M unit :=
  fun σ =>
    let σ1 := set_processing S σ in
    let r := handler_run o h s (trace σ1) in
    let σ2 := set_trace (fun t => t ++ [EvHandler h s r]) σ1 in
    outcome r (set_processing Nat.pred σ2).

(** One iteration of either handler loop of [runHandlers]. *)
Definition run_one (o : Options) (name : string) (h : Handler) (s : Signal)
  : M unit :=
  try_catch (execute o h s)
            (modify (set_handled S))
            (fun err => modify (set_errors S) >>> log (EvOnError s name err)).

(** [typeHandlers.get(signal.type) ?? []] *)
Definition handlers_for (σ : State) (ty : string) : list Handler :=
  match typeHandlers σ !! ty with
  | Some r => default [] (arrays σ !! r)
  | None => []
  end.

(** [for (const handler of handlers) { try ... catch ... }] *)
Fixpoint run_typed (o : Options) (hs : list Handler) (s : Signal) : M unit :=
  match hs with
  | [] => ret tt
  | h :: rest =>
      run_one o ("type:" +:+ sig_type s) h s >>> run_typed o rest s
  end.

(** [for (let i = 0; i < anyHandlers.length; i++) { ... `any:${i}` ... }];
    the guard [if (!handler) continue] never fires, a registered handler
    being a function. *)
Fixpoint run_any (o : Options) (i : nat) (hs : list Handler) (s : Signal)
  : M unit :=
  match hs with
  | [] => ret tt
  | h :: rest =>
      run_one o ("any:" +:+ pretty i) h s >>> run_any o (S i) rest s
  end.

(** The terminal step of the chain: the typed handlers of the signal's
    type, then the any-handlers (the list as it is when their loop
    starts). *)
Definition runHandlers (o : Options) (s : Signal) : M unit :=
  fun σ =>
    (run_typed o (handlers_for σ (sig_type s)) s >>>
     (fun σ' => run_any o 0 (anyHandlers σ') s σ')) σ.

(** The chain built by the loop of [processSignal], from the last
    middleware to the first: [next = chain; chain = () => mw(signal, next)]
    (again, [if (!mw) continue] never fires). *)
Definition build_chain (o : Options) (s : Signal) (mws : list Middleware)
  : M unit :=
  foldr (fun mw next => run_prog (mw s) next) (runHandlers o s) mws.

(** [processSignal]: build the chain from the middleware registered now,
    then [await chain()]. *)
Definition processSignal (o : Options) (s : Signal) : M unit :=
  fun σ => build_chain o s (middlewareStack σ) σ.

(** [transport.emit(signal)], the bus being the subscriber. *)
Definition transport_emit (o : Options) (s : Signal) : M unit :=
  log (EvTransportEmit s) >>> run_prog (transport o s) (processSignal o s).

(** The three calls to the store; each method sees the history up to its
    call. *)
Definition store_save (o : Options) (s : Signal) : M unit :=
  fun σ => outcome (save (store o) s (trace σ))
                   (set_trace (fun t => t ++ [EvSave s]) σ).

Definition store_markAcked (o : Options) (id : string) : M unit :=
  fun σ => outcome (markAcked (store o) id (trace σ))
                   (set_trace (fun t => t ++ [EvMarkAcked id]) σ).

Definition store_getUnacked (o : Options) : M (list Signal) :=
  fun σ =>
    let σ' := set_trace (fun t => t ++ [EvGetUnacked]) σ in
    match getUnacked (store o) (trace σ) with
    | inr l => (Resolved l, σ')
    | inl e => (Rejected e, σ')
    end.

(** [emit]: [emittedCount++; await store.save(signal);
    await transport.emit(signal); await store.markAcked(signal.id)] *)
Definition emit (o : Options) (s : Signal) : M unit :=
  modify (set_emitted S) >>>
  store_save o s >>>
  transport_emit o s >>>
  store_markAcked o (sig_id s).

(** [replay]: [for (const signal of unacked) { emit on transport; ack }] *)
Fixpoint replay_loop (o : Options) (l : list Signal) : M unit :=
  match l with
  | [] => ret tt
  | s :: rest =>
      transport_emit o s >>> store_markAcked o (sig_id s) >>> replay_loop o rest
  end.

Definition replay (o : Options) : M nat :=
  bind (store_getUnacked o) (fun unacked =>
  replay_loop o unacked >>> ret (length unacked)).

(** ** Subscription tables *)

(** The state right after [createSignalBus]. *)
Definition createSignalBus : State :=
  mkState ∅ [] [] [] 0 0 0 0 [].

Definition set_tables (th : gmap string nat) (ar : list (list Handler))
    (σ : State) : State :=
  mkState th ar (anyHandlers σ) (middlewareStack σ)
          (emittedCount σ) (handledCount σ) (errorCount σ) (processing σ)
          (trace σ).
Definition set_any (f : list Handler -> list Handler) (σ : State) : State :=
  mkState (typeHandlers σ) (arrays σ) (f (anyHandlers σ)) (middlewareStack σ)
          (emittedCount σ) (handledCount σ) (errorCount σ) (processing σ)
          (trace σ).
Definition set_middleware (f : list Middleware -> list Middleware)
    (σ : State) : State :=
  mkState (typeHandlers σ) (arrays σ) (anyHandlers σ) (f (middlewareStack σ))
          (emittedCount σ) (handledCount σ) (errorCount σ) (processing σ)
          (trace σ).

(** [Array.prototype.indexOf]; [None] stands for [-1]. *)
Fixpoint indexOf (h : Handler) (l : list Handler) : option nat :=
  match l with
  | [] => None
  | x :: rest => if decide (x = h) then Some 0%nat else S <$> indexOf h rest
  end.

(** The body of both unsubscribe closures:
    [const idx = list.indexOf(handler); if (idx !== -1) list.splice(idx, 1)]. *)
Definition unsubscribe_from (h : Handler) (l : list Handler) : list Handler :=
  match indexOf h l with
  | Some idx => delete idx l
  | None => l
  end.

(** The closure returned by [on] (over the array [list] and [handler]) and
    the closure returned by [onAny] (over [handler]). *)
Inductive Unsubscribe :=
| UnsubOn (list_ref : nat) (h : Handler)
| UnsubAny (h : Handler).

Definition on (ty : string) (h : Handler) (σ : State) : Unsubscribe * State :=
  let σ1 :=
    match typeHandlers σ !! ty with
    | Some _ => σ
    | None => set_tables (<[ty := length (arrays σ)]> (typeHandlers σ))
                         (arrays σ ++ [[]]) σ
    end in
  let r := default 0%nat (typeHandlers σ1 !! ty) in
  (UnsubOn r h,
   set_tables (typeHandlers σ1) (alter (fun l => l ++ [h]) r (arrays σ1)) σ1).

Definition onAny (h : Handler) (σ : State) : Unsubscribe * State :=
  (UnsubAny h, set_any (fun l => l ++ [h]) σ).

Definition call_unsubscribe (u : Unsubscribe) (σ : State) : State :=
  match u with
  | UnsubOn r h =>
      set_tables (typeHandlers σ) (alter (unsubscribe_from h) r (arrays σ)) σ
  | UnsubAny h => set_any (unsubscribe_from h) σ
  end.

Definition use (mw : Middleware) (σ : State) : State :=
  set_middleware (fun l => l ++ [mw]) σ.

(** [typeHandlers.clear(); anyHandlers.length = 0; middlewareStack.length = 0] *)
Definition clear (σ : State) : State :=
  set_middleware (fun _ => []) (set_any (fun _ => []) (set_tables ∅ (arrays σ) σ)).

Record BusStats := mkBusStats {
  st_emitted : nat;
  st_handled : nat;
  st_errors : nat;
  st_handlers : nat;
  st_anyHandlers : nat;
  st_middleware : nat
}.

Definition stats (σ : State) : BusStats :=
  {| st_emitted := emittedCount σ;
     st_handled := handledCount σ;
     st_errors := errorCount σ;
     st_handlers :=
       map_fold (fun _ r acc => (acc + length (default [] (arrays σ !! r)))%nat)
                0%nat (typeHandlers σ);
     st_anyHandlers := length (anyHandlers σ);
     st_middleware := length (middlewareStack σ) |}.

(** ** Observations on a run, used to state the properties *)

(** The effect of a stretch of dispatch that appended the events [new]:
    one more in [handledCount] for each handler that completed, one more
    in [errorCount] for each handler that threw, tables untouched. *)
Definition completed (new : list Event) : nat :=
  length (omap (fun e => match e with EvHandler h _ None => Some h | _ => None end) new).
Definition threw (new : list Event) : nat :=
  length (omap (fun e => match e with EvHandler h _ (Some _) => Some h | _ => None end) new).

Definition advance (new : list Event) (σ : State) : State :=
  mkState (typeHandlers σ) (arrays σ) (anyHandlers σ) (middlewareStack σ)
          (emittedCount σ) (handledCount σ + completed new)
          (errorCount σ + threw new) (processing σ) (trace σ ++ new).

(** The handlers run, in the order they ran. *)
Definition called (new : list Event) : list Handler :=
  omap (fun e => match e with EvHandler h _ _ => Some h | _ => None end) new.

(** The errors thrown by handlers, and the errors given to [onError]. *)
Definition thrown (new : list Event) : list (Signal * Err) :=
  omap (fun e => match e with EvHandler _ s (Some err) => Some (s, err) | _ => None end) new.
Definition reported (new : list Event) : list (Signal * Err) :=
  omap (fun e => match e with EvOnError s _ err => Some (s, err) | _ => None end) new.

(** The steps of middleware and transport code. *)
Definition user_steps (new : list Event) : list string :=
  omap (fun e => match e with EvUser tag => Some tag | _ => None end) new.

(** The calls made to the store and to the transport. *)
Definition is_io (e : Event) : bool :=
  match e with
  | EvSave _ | EvTransportEmit _ | EvMarkAcked _ | EvGetUnacked => true
  | _ => false
  end.
Definition io (new : list Event) : list Event :=
  omap (fun e => if is_io e then Some e else None) new.

(** ** Shapes of middleware *)

Definition logs (tags : list string) (k : Prog) : Prog := foldr Log k tags.

(** [async (s, next) => { pre; await next(); post }] *)
Definition onion (pre post : list string) : Prog :=
  logs pre (Call (logs post Done) Throw).

(** [async (s, next) => { steps; return }]: [next] is never called. *)
Definition short_circuit (steps : list string) : Prog := logs steps Done.



(** Every middleware of the stack awaits [next] once, for the signal [s]:
    [shapes] gives the steps each takes before and after. *)
Definition onions (s : Signal) (mws : list Middleware)
    (shapes : list (list string * list string)) : Prop :=
  (fun mw => mw s) <$> mws = (fun ab => onion ab.1 ab.2) <$> shapes.

(** The registered handlers a signal of type [ty] is dispatched to. *)
Definition registered (σ : State) (ty : string) : list Handler :=
  handlers_for σ ty ++ anyHandlers σ.

(** The default layers. *)
Definition default_layers (o : Options) : Prop :=
  transport o = createMemoryTransport ∧ store o = createNoopStore.




(** What [replay] is to do with the store and the transport for the list
    [l] of unacknowledged signals. *)
Definition ack_pair (s : Signal) : list Event :=
  [EvTransportEmit s; EvMarkAcked (sig_id s)].


(** The events of one run of the terminal step [runHandlers] for [s]:
    the registered handlers were called in order, every error thrown was
    handed to [onError], and nothing else happened. *)
Definition handlers_ran (s : Signal) (σ : State) (new : list Event) : Prop :=
  called new = registered σ (sig_type s) ∧
  reported new = thrown new ∧
  user_steps new = [] ∧
  io new = [].


(** Every array the map refers to exists, and no two types share one. *)
Definition refs_valid (σ : State) : Prop :=
  ∀ ty r, typeHandlers σ !! ty = Some r →
          (r < length (arrays σ))%nat ∧
          ∀ ty', typeHandlers σ !! ty' = Some r → ty' = ty.


(** ** The bus as its user drives it *)

(** What a caller can do with a bus.  [OpUnsubscribe] calls an unsubscribe
    closure (any closure over a handler array and a handler, whether or not
    its registration is still there). *)
Inductive Op :=
| OpOn (ty : string) (h : Handler)
| OpOnAny (h : Handler)
| OpUnsubscribe (u : Unsubscribe)
| OpUse (mw : Middleware)
| OpClear
| OpEmit (s : Signal)
| OpReplay.

Definition step (o : Options) (op : Op) (σ : State) : State :=
  match op with
  | OpOn ty h => (on ty h σ).2
  | OpOnAny h => (onAny h σ).2
  | OpUnsubscribe u => call_unsubscribe u σ
  | OpUse mw => use mw σ
  | OpClear => clear σ
  | OpEmit s => (emit o s σ).2
  | OpReplay => (replay o σ).2
  end.

Definition run (o : Options) (ops : list Op) (σ : State) : State :=
  foldl (fun σ op => step o op σ) σ ops.


(** The whole script of a successful [emit]. *)
Definition emit_script (s : Signal) : list Event :=
  [EvSave s; EvTransportEmit s; EvMarkAcked (sig_id s)].

(** The array closed over by an unsubscribe closure of [on]. *)
Definition list_of (u : Unsubscribe) : option nat :=
  match u with
  | UnsubOn r _ => Some r
  | UnsubAny _ => None
  end.


(** The array [r] exists and only the type [ty] may refer to it; the array
    [r] exists and no type refers to it. *)
Definition only_for (r : nat) (ty : string) (σ : State) : Prop :=
  (r < length (arrays σ))%nat ∧
  ∀ ty', typeHandlers σ !! ty' = Some r → ty' = ty.

Definition detached (r : nat) (σ : State) : Prop :=
  (r < length (arrays σ))%nat ∧ ∀ ty, typeHandlers σ !! ty ≠ Some r.

End Bus.

(* ===================================================================== *)
(** * Ticks and tick statistics ([src/clock/types.ts])                     *)
(* ===================================================================== *)

Module Clock.

Inductive Reason := interval | bridge | manual | catchup.

Record Tick := mkTick {
  ts : Z;
  seq : nat;
  reason : Reason;
  drift : option Z
}.

Record TickStats := mkTickStats {
  tickCount : nat;
  droppedTicks : nat;
  errors : nat;
  avgHandlerMs : Q;
  avgDriftMs : Q;
  lastTickAt : Z;
  maxHandlerMs : Q
}.


(** [tickCount > 0 ? total / tickCount : 0] *)
Definition average (total : Q) (count : nat) : Q :=
  if (0 <? count)%nat then (total / inject_Z (Z.of_nat count))%Q else 0%Q.

(** What a call [handler(tick)] does: return a plain value, throw, or
    return a promise (given with the way it will settle). *)
Inductive HandlerReturn :=
| Returns
| Throws (e : Err)
| Promise (settles : option Err).

(** A [TickHandler]; its behaviour may depend on the ticks it has seen. *)
Definition TickHandler := Tick -> list Tick -> HandlerReturn.

(** [try { await handler(tick) } catch (err) { ... }]: [Some err] when the
    catch block is entered. *)
Definition awaited (r : HandlerReturn) : option Err :=
  match r with
  | Returns => None
  | Throws e => Some e
  | Promise settles => settles
  end.



End Clock.

(* ===================================================================== *)
(** * The test clock ([src/clock/test-clock.ts])                           *)
(* ===================================================================== *)

(** [intervalMs] is not validated by [createTestClock]; the integer
    division of this model stands for [Math.floor(accumulator / intervalMs)]
    when [intervalMs] is not 0. *)

Module TestClock.

Record State := mkState {
  intervalMs : Z;
  handler : option Clock.TickHandler;
  _running : bool;
  _seq : nat;
  virtualTime : Z;
  accumulator : Z;
  tickCount : nat;
  errors : nat;
  totalHandlerMs : Q;
  lastTickAt : Z;
  maxHandlerMs : Q;
  (* ghost: number of [performance.now()] readings taken so far *)
  perf_reads : nat;
  (* ghost: every tick handed to a handler, with the value of
     [accumulator] at that moment *)
  fired : list (Clock.Tick * Z)
}.

Definition createTestClock (intervalMs : Z) : State :=
  mkState intervalMs None false 0 0 0 0 0 0%Q 0 0%Q 0 [].

(** State reached when the handler has thrown (or its promise rejected):
    [errors++; throw err]. *)
Definition after_throw (σ : State) (tick : Clock.Tick) (reads : nat) : State :=
  mkState (intervalMs σ) (handler σ) (_running σ) (S (_seq σ))
          (virtualTime σ) (accumulator σ) (S (tickCount σ)) (S (errors σ))
          (totalHandlerMs σ) (virtualTime σ) (maxHandlerMs σ)
          reads (fired σ ++ [(tick, accumulator σ)]).

(** State reached when the handler has completed after [elapsed] ms. *)
Definition after_return (σ : State) (tick : Clock.Tick) (reads : nat)
    (elapsed : Q) : State :=
  mkState (intervalMs σ) (handler σ) (_running σ) (S (_seq σ))
          (virtualTime σ) (accumulator σ) (S (tickCount σ)) (errors σ)
          (totalHandlerMs σ + elapsed)%Q (virtualTime σ)
          (if Qlt_le_dec (maxHandlerMs σ) elapsed then elapsed
           else maxHandlerMs σ)
          reads (fired σ ++ [(tick, accumulator σ)]).

Definition fireSingleTick (perf : nat -> Q) (reason : Clock.Reason)
    (σ : State) : Result unit * State :=
  match handler σ with
  | None => (Resolved tt, σ)
  | Some h =>
      let tick := Clock.mkTick (virtualTime σ) (_seq σ) reason None in
      let start := perf (perf_reads σ) in
      match Clock.awaited (h tick (fst <$> fired σ)) with
      | Some err => (Rejected err, after_throw σ tick (S (perf_reads σ)))
      | None =>
          let elapsed := (perf (S (perf_reads σ)) - start)%Q in
          (Resolved tt, after_return σ tick (S (S (perf_reads σ))) elapsed)
      end
  end.

Definition set_time (vt acc : Z) (σ : State) : State :=
  mkState (intervalMs σ) (handler σ) (_running σ) (_seq σ) vt acc
          (tickCount σ) (errors σ) (totalHandlerMs σ) (lastTickAt σ)
          (maxHandlerMs σ) (perf_reads σ) (fired σ).

Definition set_handler (h : option Clock.TickHandler) (r : bool) (σ : State)
  : State :=
  mkState (intervalMs σ) h r (_seq σ) (virtualTime σ) (accumulator σ)
          (tickCount σ) (errors σ) (totalHandlerMs σ) (lastTickAt σ)
          (maxHandlerMs σ) (perf_reads σ) (fired σ).

(** [for (let i = 0; i < n; i++) { virtualTime += intervalMs;
    await fireSingleTick("manual") }]; a rejection leaves the loop. *)
Fixpoint tick_loop (perf : nat -> Q) (n : nat) (σ : State)
  : Result unit * State :=
  match n with
  | O => (Resolved tt, σ)
  | S k =>
      let σ1 := set_time (virtualTime σ + intervalMs σ) (accumulator σ) σ in
      match fireSingleTick perf Clock.manual σ1 with
      | (Resolved _, σ2) => tick_loop perf k σ2
      | (Rejected e, σ2) => (Rejected e, σ2)
      end
  end.

Definition start (h : Clock.TickHandler) (σ : State) : Result unit * State :=
  if _running σ then (Rejected "Clock already running", σ)
  else (Resolved tt, set_handler (Some h) true σ).

Definition stop (σ : State) : State :=
  set_time (virtualTime σ) 0 (set_handler None false σ).

Definition now (σ : State) : Z := virtualTime σ.

Definition stats (σ : State) : Clock.TickStats :=
  {| Clock.tickCount := tickCount σ;
     Clock.droppedTicks := 0;
     Clock.errors := errors σ;
     Clock.avgHandlerMs := Clock.average (totalHandlerMs σ) (tickCount σ);
     Clock.avgDriftMs := 0%Q;
     Clock.lastTickAt := lastTickAt σ;
     Clock.maxHandlerMs := maxHandlerMs σ |}.

Definition running (σ : State) : bool := _running σ.
Definition seq (σ : State) : nat := _seq σ.

Definition tick (perf : nat -> Q) (count : Z) (σ : State)
  : Result unit * State :=
  if _running σ then tick_loop perf (Z.to_nat count) σ
  else (Rejected "Clock not running", σ).

Definition advanceBy (perf : nat -> Q) (ms : Z) (σ : State)
  : Result unit * State :=
  if _running σ then
    let acc := accumulator σ + ms in
    let ticksToFire := acc / intervalMs σ in
    let σ1 := set_time (virtualTime σ) (acc - ticksToFire * intervalMs σ) σ in
    tick_loop perf (Z.to_nat ticksToFire) σ1
  else (Rejected "Clock not running", σ).

Definition flush (perf : nat -> Q) (σ : State) : Result unit * State :=
  if _running σ then
    if 0 <? accumulator σ then
      fireSingleTick perf Clock.manual
                     (set_time (virtualTime σ + accumulator σ) 0 σ)
    else (Resolved tt, σ)
  else (Rejected "Clock not running", σ).

Definition reset (σ : State) : State :=
  mkState (intervalMs σ) (handler σ) (_running σ) 0 0 0 0 0 0%Q 0 0%Q
          (perf_reads σ) (fired σ).


(** The public operations, as a caller issues them one after the other. *)
Inductive Op :=
| OpStart (h : Clock.TickHandler)
| OpStop
| OpTick (count : Z)
| OpAdvanceBy (ms : Z)
| OpFlush
| OpReset.

Definition step (perf : nat -> Q) (op : Op) (σ : State)
  : Result unit * State :=
  match op with
  | OpStart h => start h σ
  | OpStop => (Resolved tt, stop σ)
  | OpTick count => tick perf count σ
  | OpAdvanceBy ms => advanceBy perf ms σ
  | OpFlush => flush perf σ
  | OpReset => (Resolved tt, reset σ)
  end.

Definition run (perf : nat -> Q) (ops : list Op) (σ : State) : State :=
  foldl (fun σ op => snd (step perf op σ)) σ ops.


(** ** Notions used to state the properties *)

Definition total (xs : list Z) : Z := foldr Z.add 0 xs.


(** The ticks handed to the handler between two states. *)
Definition ticks_since (σ0 σ : State) : list Clock.Tick :=
  drop (length (fired σ0)) (fst <$> fired σ).




(** The operations that keep the current numbering of ticks: all but
    [start] and [reset]. *)
Definition keeps_numbering (op : Op) : Prop :=
  match op with
  | OpStart _ | OpReset => False
  | _ => True
  end.



(** The way each of a series of operations ended. *)
Fixpoint results (perf : nat -> Q) (ops : list Op) (σ : State)
  : list (Result unit) :=
  match ops with
  | [] => []
  | op :: rest => (step perf op σ).1 :: results perf rest (step perf op σ).2
  end.


(** ** Notions used for the laws of the whole interface *)





Definition not_start (op : Op) : Prop :=
  match op with
  | OpStart _ => False
  | _ => True
  end.



End TestClock.

(* ===================================================================== *)
(** * The bridge clock ([src/clock/bridge.ts])                             *)
(* ===================================================================== *)

Module BridgeClock.

Record State := mkState {
  handler : option Clock.TickHandler;
  _running : bool;
  _seq : nat;
  tickCount : nat;
  errors : nat;
  totalHandlerMs : Z;
  lastTickAt : Z;
  maxHandlerMs : Z;
  (* ghost: number of [Date.now()] readings taken so far *)
  wall_reads : nat;
  (* ghost: every tick handed to a handler *)
  fired : list Clock.Tick;
  (* ghost: promises returned by handlers and not settled yet, each with
     the [start] its callbacks closed over and the way it will settle *)
  pending : list (Z * option Err)
}.

Definition createBridgeClock : State :=
  mkState None false 0 0 0 0 0 0 0 [] [].

Definition start (h : Clock.TickHandler) (σ : State) : Result unit * State :=
  if _running σ then (Rejected "Clock already running", σ)
  else (Resolved tt,
        mkState (Some h) true 0 0 0 0 0 0 (wall_reads σ) (fired σ) (pending σ)).

Definition stop (σ : State) : State :=
  mkState None false (_seq σ) (tickCount σ) (errors σ) (totalHandlerMs σ)
          (lastTickAt σ) (maxHandlerMs σ) (wall_reads σ) (fired σ) (pending σ).

Definition now (wall : nat -> Z) (σ : State) : Z := wall (wall_reads σ).

Definition stats (σ : State) : Clock.TickStats :=
  {| Clock.tickCount := tickCount σ;
     Clock.droppedTicks := 0;
     Clock.errors := errors σ;
     Clock.avgHandlerMs :=
       Clock.average (inject_Z (totalHandlerMs σ)) (tickCount σ);
     Clock.avgDriftMs := 0%Q;
     Clock.lastTickAt := lastTickAt σ;
     Clock.maxHandlerMs := inject_Z (maxHandlerMs σ) |}.

Definition running (σ : State) : bool := _running σ.
Definition seq (σ : State) : nat := _seq σ.

(** [const elapsed = Date.now() - start; totalHandlerMs += elapsed;
    if (elapsed > maxHandlerMs) maxHandlerMs = elapsed], after
    [errs] more errors were counted. *)
Definition record_elapsed (wall : nat -> Z) (start : Z) (errs : nat)
    (σ : State) : State :=
  let elapsed := wall (wall_reads σ) - start in
  mkState (handler σ) (_running σ) (_seq σ) (tickCount σ) (errs + errors σ)
          (totalHandlerMs σ + elapsed) (lastTickAt σ)
          (if maxHandlerMs σ <? elapsed then elapsed else maxHandlerMs σ)
          (S (wall_reads σ)) (fired σ) (pending σ).

Definition add_pending (p : Z * option Err) (σ : State) : State :=
  mkState (handler σ) (_running σ) (_seq σ) (tickCount σ) (errors σ)
          (totalHandlerMs σ) (lastTickAt σ) (maxHandlerMs σ)
          (wall_reads σ) (fired σ) (pending σ ++ [p]).

(** The call [handler(tick)] inside the [try] of [push]. *)
Definition call_handler (h : Clock.TickHandler) (tick : Clock.Tick)
    (σ : State) : Result Clock.HandlerReturn :=
  match h tick (fired σ) with
  | Clock.Throws e => Rejected e
  | r => Resolved r
  end.

Definition push (wall : nat -> Z) (σ : State) : Result unit * State :=
  match _running σ, handler σ with
  | true, Some h =>
      let tick := Clock.mkTick (wall (wall_reads σ)) (_seq σ) Clock.bridge None in
      let start := wall (S (wall_reads σ)) in
      let σ1 :=
        mkState (handler σ) (_running σ) (S (_seq σ)) (S (tickCount σ))
                (errors σ) (totalHandlerMs σ) (Clock.ts tick) (maxHandlerMs σ)
                (S (S (wall_reads σ))) (fired σ ++ [tick]) (pending σ) in
      match call_handler h tick σ with
      | Rejected err =>
          (* catch (err) { errors++; ...; return } *)
          (Resolved tt, record_elapsed wall start 1 σ1)
      | Resolved (Clock.Promise settles) =>
          (Resolved tt, add_pending (start, settles) σ1)
      | Resolved _ =>
          (Resolved tt, record_elapsed wall start 0 σ1)
      end
  | _, _ => (Resolved tt, σ)
  end.

(** One of the two callbacks given to [then] runs: the [i]-th pending
    promise settles. *)
Definition settle (wall : nat -> Z) (i : nat) (σ : State) : State :=
  match pending σ !! i with
  | None => σ
  | Some (start, settles) =>
      let σ1 :=
        mkState (handler σ) (_running σ) (_seq σ) (tickCount σ) (errors σ)
                (totalHandlerMs σ) (lastTickAt σ) (maxHandlerMs σ)
                (wall_reads σ) (fired σ) (delete i (pending σ)) in
      record_elapsed wall start
        (match settles with Some _ => 1%nat | None => 0%nat end) σ1
  end.

(** What can happen to a bridge clock. *)
Inductive Op :=
| OpStart (h : Clock.TickHandler)
| OpStop
| OpPush
| OpSettle (i : nat).

Definition step (wall : nat -> Z) (op : Op) (σ : State) : Result unit * State :=
  match op with
  | OpStart h => start h σ
  | OpStop => (Resolved tt, stop σ)
  | OpPush => push wall σ
  | OpSettle i => (Resolved tt, settle wall i σ)
  end.

Definition run (wall : nat -> Z) (ops : list Op) (σ : State) : State :=
  foldl (fun σ op => snd (step wall op σ)) σ ops.


(** ** Notions used to state the properties *)

(** The operations that do not begin a new epoch: all but [start]. *)
Definition keeps_epoch (op : Op) : Prop :=
  match op with
  | OpStart _ => False
  | _ => True
  end.


(** The handler calls that fail among those for the ticks [new], handed
    over after the ticks [past]: the handler throws, or the promise it
    returns rejects. *)
Fixpoint failures (h : Clock.TickHandler) (past new : list Clock.Tick) : nat :=
  match new with
  | [] => 0
  | t :: rest =>
      (match Clock.awaited (h t past) with Some _ => 1 | None => 0 end +
       failures h (past ++ [t]) rest)%nat
  end.

(** The pending promises that will reject. *)
Definition rejecting (p : list (Z * option Err)) : nat :=
  length (omap snd p).

(** The ticks handed over between two states. *)
Definition ticks_since (σ0 σ : State) : list Clock.Tick :=
  drop (length (fired σ0)) (fired σ).

End BridgeClock.

(* ===================================================================== *)
(** * The interval clock ([src/clock/interval.ts])                         *)
(* ===================================================================== *)

(** [start], [stop], [stats] and the common fire procedure [fireTick].
    The three schedulers call [fireTick(reason, drift)] from timer
    callbacks, each time with a number for [drift]; which calls happen, and
    when, is decided by the host's timers and is left open here: an epoch is
    any sequence of such calls and of handler completions. *)

Module IntervalClock.

Inductive BackpressurePolicy := block | drop | adaptive.

Record IntervalClockOptions := mkOptions {
  intervalMs : Z;
  backpressure : BackpressurePolicy;
  maxCatchUpTicks : Z;
  onDriftWarning : bool;        (* is the callback given? *)
  onError : bool                (* is the callback given? *)
}.

Definition DRIFT_WARN_RATIO : Q := 8 # 10.
Definition DRIFT_WARN_COUNT : nat := 5.

Inductive Event :=
| EvTick (t : Clock.Tick)          (* handler(t) was called *)
| EvDriftWarning (d : Z)           (* onDriftWarning(d) was called *)
| EvError (e : Err).               (* onError(e) was called *)

Record State := mkState {
  handler : option Clock.TickHandler;
  timer : bool;                    (* is a timeout pending? *)
  _running : bool;
  _seq : nat;
  busy : bool;
  tickCount : nat;
  droppedTicks : nat;
  errors : nat;
  totalHandlerMs : Z;
  totalDriftMs : Z;
  lastTickAt : Z;
  maxHandlerMs : Z;
  consecutiveHighDrift : nat;
  nextIdealTime : Z;
  accumulator : Z;
  (* ghost: number of [Date.now()] readings taken so far *)
  wall_reads : nat;
  (* ghost: calls made to the handler and to the two callbacks *)
  events : list Event;
  (* ghost: handler calls being awaited, each with [start] and the way the
     await will end *)
  inflight : list (Z * option Err)
}.

(** The variables closed over, as initialised. *)
Definition initial : State :=
  mkState None false false 0 false 0 0 0 0 0 0 0 0 0 0 0 [] [].

(** [createIntervalClock]: [if (intervalMs <= 0) throw ...] *)
Definition createIntervalClock (o : IntervalClockOptions) : Result State :=
  if intervalMs o <=? 0 then Rejected "intervalMs must be positive"
  else Resolved initial.

(** [Math.abs(drift) > intervalMs * DRIFT_WARN_RATIO] *)
Definition high_drift (o : IntervalClockOptions) (d : Z) : bool :=
  if Qlt_le_dec (inject_Z (intervalMs o) * DRIFT_WARN_RATIO)
                (inject_Z (Z.abs d))
  then true else false.

(** [fireTick] up to the point where it awaits the handler. *)
Definition fireTick_enter (o : IntervalClockOptions) (wall : nat -> Z)
    (reason : Clock.Reason) (drift : option Z) (σ : State) : State :=
  match handler σ with
  | None => σ
  | Some h =>
      let tick := Clock.mkTick (wall (wall_reads σ)) (_seq σ) reason drift in
      let totalDrift' :=
        match drift with
        | Some d => totalDriftMs σ + Z.abs d
        | None => totalDriftMs σ
        end in
      let high' :=
        match drift with
        | Some d => if high_drift o d then S (consecutiveHighDrift σ) else 0%nat
        | None => consecutiveHighDrift σ
        end in
      let warn :=
        match drift with
        | Some d =>
            if high_drift o d && (DRIFT_WARN_COUNT <=? high')%nat
               && onDriftWarning o
            then [EvDriftWarning d] else []
        | None => []
        end in
      let start := wall (S (wall_reads σ)) in
      let past := omap (fun e => match e with EvTick t => Some t | _ => None end)
                       (events σ) in
      mkState (handler σ) (timer σ) (_running σ) (S (_seq σ)) (busy σ)
              (S (tickCount σ)) (droppedTicks σ) (errors σ)
              (totalHandlerMs σ) totalDrift' (Clock.ts tick) (maxHandlerMs σ)
              high' (nextIdealTime σ) (accumulator σ)
              (S (S (wall_reads σ)))
              (events σ ++ warn ++ [EvTick tick])
              (inflight σ ++ [(start, Clock.awaited (h tick past))])
  end.

(** [fireTick] from the point where the [i]-th awaited handler call ends. *)
Definition fireTick_resume (o : IntervalClockOptions) (wall : nat -> Z)
    (i : nat) (σ : State) : State :=
  match inflight σ !! i with
  | None => σ
  | Some (start, r) =>
      let elapsed := wall (wall_reads σ) - start in
      mkState (handler σ) (timer σ) (_running σ) (_seq σ) (busy σ)
              (tickCount σ) (droppedTicks σ)
              (match r with Some _ => S (errors σ) | None => errors σ end)
              (totalHandlerMs σ + elapsed) (totalDriftMs σ) (lastTickAt σ)
              (if maxHandlerMs σ <? elapsed then elapsed else maxHandlerMs σ)
              (consecutiveHighDrift σ) (nextIdealTime σ) (accumulator σ)
              (S (wall_reads σ))
              (events σ ++ match r with
                           | Some e => if onError o then [EvError e] else []
                           | None => []
                           end)
              (delete i (inflight σ))
  end.

(** [start]: the reset, then the synchronous part of the chosen scheduler
    ([scheduleBlock], [scheduleDrop] or [scheduleAdaptive]), which arms the
    first timeout. *)
Definition start (o : IntervalClockOptions) (wall : nat -> Z)
    (h : Clock.TickHandler) (σ : State) : Result unit * State :=
  if _running σ then (Rejected "Clock already running", σ)
  else
    let fixed_rate :=
      match backpressure o with
      | block => false
      | _ => true
      end in
    (* nextIdealTime = nextIdealTime || now + intervalMs, from 0 *)
    let nextIdeal :=
      if fixed_rate then wall (wall_reads σ) + intervalMs o else 0 in
    (Resolved tt,
     mkState (Some h) true true 0 false 0 0 0 0 0 0 0 0 nextIdeal 0
             (if fixed_rate then S (wall_reads σ) else wall_reads σ)
             (events σ) (inflight σ)).

Definition stop (σ : State) : State :=
  mkState None false false (_seq σ) false
          (tickCount σ) (droppedTicks σ) (errors σ) (totalHandlerMs σ)
          (totalDriftMs σ) (lastTickAt σ) (maxHandlerMs σ)
          (consecutiveHighDrift σ) (nextIdealTime σ) (accumulator σ)
          (wall_reads σ) (events σ) (inflight σ).

Definition stats (σ : State) : Clock.TickStats :=
  {| Clock.tickCount := tickCount σ;
     Clock.droppedTicks := droppedTicks σ;
     Clock.errors := errors σ;
     Clock.avgHandlerMs :=
       Clock.average (inject_Z (totalHandlerMs σ)) (tickCount σ);
     Clock.avgDriftMs :=
       Clock.average (inject_Z (totalDriftMs σ)) (tickCount σ);
     Clock.lastTickAt := lastTickAt σ;
     Clock.maxHandlerMs := inject_Z (maxHandlerMs σ) |}.

Definition running (σ : State) : bool := _running σ.
Definition seq (σ : State) : nat := _seq σ.

(** What happens during an epoch. *)
Inductive Action :=
| Fire (reason : Clock.Reason) (drift : Z)   (* a scheduler calls fireTick *)
| Resume (i : nat).                          (* an awaited handler call ends *)

Definition act (o : IntervalClockOptions) (wall : nat -> Z) (a : Action)
    (σ : State) : State :=
  match a with
  | Fire reason d => fireTick_enter o wall reason (Some d) σ
  | Resume i => fireTick_resume o wall i σ
  end.

Definition run (o : IntervalClockOptions) (wall : nat -> Z)
    (acts : list Action) (σ : State) : State :=
  foldl (fun σ a => act o wall a σ) σ acts.


(** ** Notions used to state the properties *)


Definition drifts (acts : list Action) : list Z :=
  omap (fun a => match a with Fire _ d => Some d | _ => None end) acts.

(** The number of high-drift ticks in a row at the end of [ds]. *)
Fixpoint leading_high (o : IntervalClockOptions) (ds : list Z) : nat :=
  match ds with
  | [] => 0%nat
  | d :: rest => if high_drift o d then S (leading_high o rest) else 0%nat
  end.

Definition high_run (o : IntervalClockOptions) (ds : list Z) : nat :=
  leading_high o (reverse ds).



End IntervalClock.

(* ===================================================================== *)
(** * The in-memory transport ([src/transport/memory.ts])                  *)
(* ===================================================================== *)

(** The transport of [createMemoryTransport] on its own, with any number
    of subscribers.  A subscriber is a function value (its identity, a
    [nat]); calling it acts on the state [St] of the program that owns it.
    Subscribers do not subscribe or unsubscribe while an [emit] is under
    way. *)

Module MemoryTransport.

(** [subscribers], a [Set]: its elements in insertion order, none twice. *)
Definition Subscribers := list nat.

Definition createMemoryTransport : Subscribers := [].

(** [Set.prototype.add] and [Set.prototype.delete] *)
Definition set_add (h : nat) (subs : Subscribers) : Subscribers :=
  if decide (h ∈ subs) then subs else subs ++ [h].

Definition set_delete (h : nat) (subs : Subscribers) : Subscribers :=
  filter (fun x => x ≠ h) subs.

(** [subscribe]: [subscribers.add(handler)]; the closure returned deletes
    [handler] and is given here by the handler it closes over. *)
Definition subscribe (h : nat) (subs : Subscribers) : nat * Subscribers :=
  (h, set_add h subs).

Definition call_unsubscribe (closure : nat) (subs : Subscribers) : Subscribers :=
  set_delete closure subs.

(** [for (const handler of subscribers) { await handler(signal) }];
    [call] is what calling a subscriber does. *)
Fixpoint emit {St : Type} (call : nat → Bus.Signal → St → Result unit * St)
    (subs : Subscribers) (s : Bus.Signal) (σ : St) : Result unit * St :=
  match subs with
  | [] => (Resolved tt, σ)
  | h :: rest =>
      match call h s σ with
      | (Resolved _, σ') => emit call rest s σ'
      | (Rejected e, σ') => (Rejected e, σ')
      end
  end.

(** What a caller can do with the set of subscribers. *)
Inductive Op :=
| OpSubscribe (h : nat)
| OpUnsubscribe (closure : nat).

Definition step (op : Op) (subs : Subscribers) : Subscribers :=
  match op with
  | OpSubscribe h => (subscribe h subs).2
  | OpUnsubscribe c => call_unsubscribe c subs
  end.

Definition run (ops : list Op) (subs : Subscribers) : Subscribers :=
  foldl (fun subs op => step op subs) subs ops.

End MemoryTransport.

(* ===================================================================== *)
(** * Concrete buses and clocks used as instances                          *)
(* ===================================================================== *)

Module Examples.

(** Default layers, handlers that never throw. *)
Definition quiet_options : Bus.Options :=
  Bus.mkOptions Bus.createMemoryTransport Bus.createNoopStore
                (fun _ _ _ => None).


Definition sig_x : Bus.Signal := Bus.mkSignal "x" 1 "a" 1.

(** [bus.on("x", h1)] on a new bus. *)
Definition one_handler_bus : Bus.State :=
  (Bus.on "x" 1%nat Bus.createSignalBus).2.

(** [bus.on("x", h1); bus.use(async (s, next) => {})] *)
Definition dropping_bus : Bus.State :=
  Bus.use (fun _ => Bus.short_circuit []) one_handler_bus.

(** [bus.on("x", h1); bus.use(m1); bus.use(m2)], both awaiting [next]. *)
Definition onion_bus : Bus.State :=
  Bus.use (fun _ => Bus.onion ["m2-pre"] ["m2-post"])
    (Bus.use (fun _ => Bus.onion ["m1-pre"] ["m1-post"]) one_handler_bus).











(** A time source for [performance.now()] and [Date.now()]. *)
Definition perf : nat -> Q := fun n => inject_Z (Z.of_nat n).
Definition wall : nat -> Z := fun n => 1000 + Z.of_nat n.

(** [() => {}] and [() => { throw new Error("boom") }] *)
Definition ok_handler : Clock.TickHandler := fun _ _ => Clock.Returns.
Definition boom_handler : Clock.TickHandler := fun _ _ => Clock.Throws "boom".

(** [const c = createTestClock(100); c.start(h); await c.tick(); c.stop()] *)
Definition used_test_clock : TestClock.State :=
  TestClock.run perf
    [TestClock.OpStart ok_handler; TestClock.OpTick 1; TestClock.OpStop]
    (TestClock.createTestClock 100).


Definition block_options : IntervalClock.IntervalClockOptions :=
  IntervalClock.mkOptions 100 IntervalClock.block 3 true true.

Definition drop_options : IntervalClock.IntervalClockOptions :=
  IntervalClock.mkOptions 100 IntervalClock.drop 3 true true.

(** A new interval clock. *)
Definition new_interval_clock : IntervalClock.State := IntervalClock.initial.



End Examples.

(* ===================================================================== *)
(** * Properties of the signal bus                                         *)
(* ===================================================================== *)

Module BusFacts.
Import Bus.

Ltac unfold_ops :=
  rw /log /modify /seq /bind /ret /raise /outcome /try_catch /set_trace
          /set_errors /set_handled /set_processing /set_emitted /advance /=.

Ltac state_eq :=
  f_equal; rw /completed /threw /= -?app_assoc ?app_nil_r //; lia.

(** ** Unsubscribing *)

Lemma indexOf_None (h : Handler) (l : list Handler) :
  indexOf h l = None ↔ h ∉ l.
Proof.
  induction l as [|x l IH]; simpl.
  - split; [intros _; apply not_elem_of_nil | done].
  - case_decide as Hx.
    + subst x. split; [done | intros Hn; destruct Hn; left].
    + rw fmap_None IH not_elem_of_cons. split; [by intros ?; split|by intros [_ ?]].
Qed.

Lemma unsubscribe_from_absent (h : Handler) (l : list Handler) :
  h ∉ l → unsubscribe_from h l = l.
Proof. intros Hn. unfold unsubscribe_from. by apply indexOf_None in Hn as ->. Qed.

Lemma unsubscribe_from_cons_eq (h : Handler) (l : list Handler) :
  unsubscribe_from h (h :: l) = l.
Proof. unfold unsubscribe_from; simpl. by rw decide_True. Qed.

Lemma unsubscribe_from_cons_ne (h x : Handler) (l : list Handler) :
  x ≠ h → unsubscribe_from h (x :: l) = x :: unsubscribe_from h l.
Proof.
  intros Hx. unfold unsubscribe_from; simpl. rw decide_False //.
  by destruct (indexOf h l).
Qed.



Lemma handlers_for_alter (f : list Handler → list Handler) (σ : State)
    (ty : string) (r : nat) :
  f [] = [] →
  typeHandlers σ !! ty = Some r →
  handlers_for (set_tables (typeHandlers σ) (alter f r (arrays σ)) σ) ty =
    f (handlers_for σ ty).
Proof.
  intros Hf Hr. unfold handlers_for; simpl. rw Hr.
  rw list_lookup_alter_eq. destruct (arrays σ !! r); simpl; auto.
Qed.

Lemma on_ref (ty : string) (h : Handler) (σ : State) :
  ∃ r, (on ty h σ).1 = UnsubOn r h ∧ typeHandlers (on ty h σ).2 !! ty = Some r.
Proof.
  unfold on. destruct (typeHandlers σ !! ty) as [r|] eqn:Hty; simpl.
  - exists r. by rw Hty.
  - exists (length (arrays σ)). by rw lookup_insert_eq.
Qed.


Lemma refs_valid_new : refs_valid createSignalBus.
Proof. intros ty r Hr. by rw lookup_empty in Hr. Qed.

(** [on] appends to the list of its type and leaves the other lists. *)
Lemma on_appends (ty : string) (h : Handler) (σ : State) :
  refs_valid σ →
  handlers_for (on ty h σ).2 ty = handlers_for σ ty ++ [h] ∧
  (∀ ty', ty' ≠ ty → handlers_for (on ty h σ).2 ty' = handlers_for σ ty') ∧
  refs_valid (on ty h σ).2.
Proof.
  intros Hv. unfold on, handlers_for.
  destruct (typeHandlers σ !! ty) as [r|] eqn:Hty; simpl.
  - destruct (Hv ty r Hty) as [Hlt Hinj].
    destruct (lookup_lt_is_Some_2 (arrays σ) r Hlt) as [l Hl].
    rw Hty /= list_lookup_alter_eq Hl /=.
    split; [done|]. split.
    + intros ty' Hne.
      destruct (typeHandlers σ !! ty') as [r'|] eqn:Hty'; [|done].
      rw list_lookup_alter_ne //. intros <-. by apply Hne, Hinj.
    + intros t r' Hr'. simpl in *. rw length_alter. by apply Hv.
  - rw lookup_insert_eq /= list_lookup_alter_eq.
    rw lookup_app_r // Nat.sub_diag /=.
    split; [done|]. split.
    + intros ty' Hne. rw lookup_insert_ne //.
      destruct (typeHandlers σ !! ty') as [r'|] eqn:Hty'; [|done].
      destruct (Hv ty' r' Hty') as [Hlt _].
      rw list_lookup_alter_ne; [by rw lookup_app_l|lia].
    + intros t r' Hr'. simpl in *. rw length_alter length_app /=.
      destruct (decide (t = ty)) as [->|Hne].
      * rw lookup_insert_eq in Hr'. injection Hr' as <-.
        split; [lia|]. intros ty' Hr''.
        destruct (decide (ty' = ty)) as [|Hne']; [done|].
        rw lookup_insert_ne // in Hr''.
        destruct (Hv ty' _ Hr'') as [Hlt _]. lia.
      * rw lookup_insert_ne // in Hr'.
        destruct (Hv t r' Hr') as [Hlt Hinj]. split; [lia|].
        intros ty' Hr''.
        destruct (decide (ty' = ty)) as [->|Hne'].
        -- rw lookup_insert_eq in Hr''. injection Hr'' as <-. lia.
        -- rw lookup_insert_ne // in Hr''. by apply Hinj.
Qed.







(** ** The effect of dispatch on the state *)

Lemma completed_app (n1 n2 : list Event) :
  completed (n1 ++ n2) = (completed n1 + completed n2)%nat.
Proof. unfold completed. by rw omap_app length_app. Qed.

Lemma threw_app (n1 n2 : list Event) :
  threw (n1 ++ n2) = (threw n1 + threw n2)%nat.
Proof. unfold threw. by rw omap_app length_app. Qed.

Lemma called_app (n1 n2 : list Event) : called (n1 ++ n2) = called n1 ++ called n2.
Proof. apply omap_app. Qed.

Lemma thrown_app (n1 n2 : list Event) : thrown (n1 ++ n2) = thrown n1 ++ thrown n2.
Proof. apply omap_app. Qed.

Lemma reported_app (n1 n2 : list Event) :
  reported (n1 ++ n2) = reported n1 ++ reported n2.
Proof. apply omap_app. Qed.

Lemma user_steps_app (n1 n2 : list Event) :
  user_steps (n1 ++ n2) = user_steps n1 ++ user_steps n2.
Proof. apply omap_app. Qed.

Lemma io_app (n1 n2 : list Event) : io (n1 ++ n2) = io n1 ++ io n2.
Proof. apply omap_app. Qed.



Lemma user_events_quiet (tags : list string) :
  completed (EvUser <$> tags) = 0%nat ∧ threw (EvUser <$> tags) = 0%nat ∧
  called (EvUser <$> tags) = [] ∧ thrown (EvUser <$> tags) = [] ∧
  reported (EvUser <$> tags) = [] ∧ io (EvUser <$> tags) = [] ∧
  user_steps (EvUser <$> tags) = tags.
Proof.
  induction tags as [|t tags IH]; [done|].
  destruct IH as (Hc & Ht & Hcl & Hth & Hr & Hio & Hu).
  change (EvUser <$> t :: tags) with ([EvUser t] ++ (EvUser <$> tags)).
  rw completed_app threw_app called_app thrown_app reported_app io_app
     user_steps_app.
  by rw Hc Ht Hcl Hth Hr Hio Hu.
Qed.

Lemma advance_nil (σ : State) : advance [] σ = σ.
Proof.
  destruct σ. unfold advance; simpl.
  by rw !Nat.add_0_r app_nil_r.
Qed.

Lemma advance_app (n1 n2 : list Event) (σ : State) :
  advance n2 (advance n1 σ) = advance (n1 ++ n2) σ.
Proof.
  unfold advance; simpl.
  by rw completed_app threw_app !Nat.add_assoc app_assoc.
Qed.


Lemma log_user (tag : string) (σ : State) :
  log (EvUser tag) σ = (Resolved tt, advance [EvUser tag] σ).
Proof.
  destruct σ. unfold log, modify, advance, set_trace; simpl.
  by rw !Nat.add_0_r.
Qed.

(** ** The terminal step: [runHandlers] *)

(** The events of one loop iteration. *)
Lemma run_one_spec (o : Options) (name : string) (h : Handler) (s : Signal)
    (σ : State) :
  ∃ new, run_one o name h s σ = (Resolved tt, advance new σ) ∧
         called new = [h] ∧ reported new = thrown new ∧
         user_steps new = [] ∧ io new = [].
Proof.
  unfold run_one, try_catch, execute.
  destruct (handler_run o h s (trace (set_processing S σ))) as [err|] eqn:Hr.
  - exists [EvHandler h s (Some err); EvOnError s name err].
    split; [|done].
    destruct σ. unfold_ops. f_equal. state_eq.
  - exists [EvHandler h s None].
    split; [|done].
    destruct σ. unfold_ops. f_equal. state_eq.
Qed.

Lemma run_typed_spec (o : Options) (s : Signal) (hs : list Handler) (σ : State) :
  ∃ new, run_typed o hs s σ = (Resolved tt, advance new σ) ∧
         called new = hs ∧ reported new = thrown new ∧
         user_steps new = [] ∧ io new = [].
Proof.
  revert σ. induction hs as [|h hs IH]; intros σ; simpl.
  - exists []. by rw advance_nil.
  - destruct (run_one_spec o ("type:" +:+ sig_type s) h s σ)
      as (n1 & E1 & C1 & R1 & U1 & I1).
    destruct (IH (advance n1 σ)) as (n2 & E2 & C2 & R2 & U2 & I2).
    exists (n1 ++ n2). unfold seq, bind. rw E1 E2 advance_app.
    rw called_app reported_app thrown_app user_steps_app io_app.
    by rw C1 C2 R1 R2 U1 U2 I1 I2.
Qed.

Lemma run_any_spec (o : Options) (s : Signal) (hs : list Handler) (i : nat)
    (σ : State) :
  ∃ new, run_any o i hs s σ = (Resolved tt, advance new σ) ∧
         called new = hs ∧ reported new = thrown new ∧
         user_steps new = [] ∧ io new = [].
Proof.
  revert i σ. induction hs as [|h hs IH]; intros i σ; simpl.
  - exists []. by rw advance_nil.
  - destruct (run_one_spec o ("any:" +:+ pretty i) h s σ)
      as (n1 & E1 & C1 & R1 & U1 & I1).
    destruct (IH (S i) (advance n1 σ)) as (n2 & E2 & C2 & R2 & U2 & I2).
    exists (n1 ++ n2). unfold seq, bind. rw E1 E2 advance_app.
    rw called_app reported_app thrown_app user_steps_app io_app.
    by rw C1 C2 R1 R2 U1 U2 I1 I2.
Qed.

(** [runHandlers] never rejects, whatever the handlers do. *)
Lemma runHandlers_spec (o : Options) (s : Signal) (σ : State) :
  ∃ new, runHandlers o s σ = (Resolved tt, advance new σ) ∧
         handlers_ran s σ new.
Proof.
  unfold runHandlers, handlers_ran, registered.
  destruct (run_typed_spec o s (handlers_for σ (sig_type s)) σ)
    as (n1 & E1 & C1 & R1 & U1 & I1).
  destruct (run_any_spec o s (anyHandlers (advance n1 σ)) 0 (advance n1 σ))
    as (n2 & E2 & C2 & R2 & U2 & I2).
  exists (n1 ++ n2). unfold seq, bind. rw E1 E2 advance_app.
  rw called_app reported_app thrown_app user_steps_app io_app.
  by rw C1 C2 R1 R2 U1 U2 I1 I2.
Qed.


(** ** Middleware and the chain *)

Lemma run_prog_logs (tags : list string) (k : Prog) (next : M unit) (σ : State) :
  run_prog (logs tags k) next σ = run_prog k next (advance (EvUser <$> tags) σ).
Proof.
  revert σ. induction tags as [|t tags IH]; intros σ; simpl.
  - by rw advance_nil.
  - unfold seq, bind. by rw log_user IH advance_app.
Qed.

Lemma run_short_circuit (steps : list string) (next : M unit) (σ : State) :
  run_prog (short_circuit steps) next σ =
    (Resolved tt, advance (EvUser <$> steps) σ).
Proof. unfold short_circuit. by rw run_prog_logs. Qed.


Lemma run_onion (pre post : list string) (next : M unit) (σ : State)
    (new : list Event) :
  next (advance (EvUser <$> pre) σ) =
    (Resolved tt, advance new (advance (EvUser <$> pre) σ)) →
  run_prog (onion pre post) next σ =
    (Resolved tt, advance ((EvUser <$> pre) ++ new ++ (EvUser <$> post)) σ).
Proof.
  intros Hnext. unfold onion. rw run_prog_logs /= Hnext.
  by rw run_prog_logs /= !advance_app.
Qed.




(** A stack of middleware that all await [next]: their steps before, the
    handlers, their steps after in the opposite order. *)
Lemma chain_onions (o : Options) (s : Signal) (mws : list Middleware)
    (shapes : list (list string * list string)) (σ : State) :
  onions s mws shapes →
  ∃ new,
    build_chain o s mws σ =
      (Resolved tt,
       advance ((EvUser <$> concat shapes.*1) ++ new ++
                (EvUser <$> concat (reverse shapes.*2))) σ) ∧
    handlers_ran s σ new.
Proof.
  unfold onions. revert shapes σ.
  induction mws as [|mw mws IH]; intros [|[pre post] shapes] σ Hsh;
    simpl in Hsh; try discriminate Hsh.
  - destruct (runHandlers_spec o s σ) as (new & E & Hran).
    exists new. by rw /= E app_nil_r.
  - injection Hsh as Hmw Hsh.
    destruct (IH shapes (advance (EvUser <$> pre) σ) Hsh) as (new & E & Hran).
    exists new. split; [|done].
    rw /= Hmw. erewrite run_onion; [|exact E].
    f_equal. f_equal.
    rw reverse_cons concat_app /= app_nil_r !fmap_app -!app_assoc //.
Qed.



(** ** [emit], step by step *)

Lemma store_save_spec (o : Options) (s : Signal) (σ : State) :
  store_save o s σ =
    (settled (save (store o) s (trace σ)), advance [EvSave s] σ).
Proof.
  unfold store_save. destruct (save (store o) s (trace σ));
    destruct σ; unfold_ops; f_equal; state_eq.
Qed.

Lemma store_markAcked_spec (o : Options) (id : string) (σ : State) :
  store_markAcked o id σ =
    (settled (markAcked (store o) id (trace σ)), advance [EvMarkAcked id] σ).
Proof.
  unfold store_markAcked. destruct (markAcked (store o) id (trace σ));
    destruct σ; unfold_ops; f_equal; state_eq.
Qed.

Lemma transport_emit_spec (o : Options) (s : Signal) (σ : State) :
  transport_emit o s σ =
    run_prog (transport o s) (processSignal o s) (advance [EvTransportEmit s] σ).
Proof.
  unfold transport_emit, seq, bind.
  replace (log (EvTransportEmit s) σ)
    with (Resolved tt, advance [EvTransportEmit s] σ); [done|].
  destruct σ; unfold_ops; f_equal; state_eq.
Qed.

Lemma emit_unfold (o : Options) (s : Signal) (σ : State) :
  emit o s σ =
    match save (store o) s (trace σ) with
    | Some e => (Rejected e, advance [EvSave s] (set_emitted S σ))
    | None =>
        match run_prog (transport o s) (processSignal o s)
                (advance [EvSave s; EvTransportEmit s] (set_emitted S σ)) with
        | (Rejected e, σ2) => (Rejected e, σ2)
        | (Resolved _, σ2) =>
            (settled (markAcked (store o) (sig_id s) (trace σ2)),
             advance [EvMarkAcked (sig_id s)] σ2)
        end
    end.
Proof.
  unfold emit, seq at 1, bind at 1, modify.
  unfold seq at 1, bind at 1. rw store_save_spec /=.
  destruct (save (store o) s (trace σ)); [done|]. simpl.
  unfold seq, bind. rw transport_emit_spec advance_app /=.
  destruct (run_prog _ _ _) as [[[]|e] σ2]; [|done].
  by rw store_markAcked_spec.
Qed.

Lemma run_memory_transport (s : Signal) (next : M unit) (σ : State) :
  run_prog (createMemoryTransport s) next σ =
    match next σ with
    | (Resolved _, σ') => (Resolved tt, σ')
    | (Rejected e, σ') => (Rejected e, σ')
    end.
Proof. done. Qed.

(** With the default layers and middleware that all await [next], [emit]
    resolves, whatever the handlers do. *)
Lemma emit_default_onions (o : Options) (s : Signal) (σ : State)
    (shapes : list (list string * list string)) :
  default_layers o →
  onions s (middlewareStack σ) shapes →
  ∃ new,
    emit o s σ =
      (Resolved tt,
       advance ([EvSave s; EvTransportEmit s] ++
                (EvUser <$> concat shapes.*1) ++ new ++
                (EvUser <$> concat (reverse shapes.*2)) ++
                [EvMarkAcked (sig_id s)]) (set_emitted S σ)) ∧
    handlers_ran s σ new.
Proof.
  intros [Ht Hs] Hsh.
  destruct (chain_onions o s (middlewareStack σ) shapes
              (advance [EvSave s; EvTransportEmit s] (set_emitted S σ)) Hsh)
    as (new & E & Hran).
  exists new. split; [|done].
  rw emit_unfold Hs Ht run_memory_transport /=.
  unfold processSignal. simpl. rw E /= !advance_app.
  f_equal. f_equal. by rw -!app_assoc.
Qed.


(** ** Counting ([emit] and the handlers) *)






(** ** Middleware order and short-circuit *)

Lemma processSignal_short_circuit (o : Options) (s : Signal) (σ : State)
    (m1 : Middleware) (rest : list Middleware) (steps : list string) :
  middlewareStack σ = m1 :: rest →
  m1 s = short_circuit steps →
  processSignal o s σ = (Resolved tt, advance (EvUser <$> steps) σ).
Proof.
  intros Hst Hm. unfold processSignal. rw Hst /= Hm.
  apply run_short_circuit.
Qed.

(** C5.  Two middleware registered as M1 then M2 that both await [next]:
    the steps of M1 before its call, those of M2 before its call, the
    handlers, the steps of M2 after, the steps of M1 after (and likewise
    for any number of them).  A first
    middleware that returns without calling [next]: only its own steps
    happen, no other middleware and no handler runs, the counters stay,
    and [emit] resolves all the same (with the default transport and a
    store that does not fail). *)
Theorem middleware_onion_and_short_circuit (o : Options) (s : Signal)
    (σ : State) :
  (∀ m1 m2 pre1 post1 pre2 post2,
     middlewareStack σ = [m1; m2] →
     m1 s = onion pre1 post1 →
     m2 s = onion pre2 post2 →
     ∃ new,
       processSignal o s σ =
         (Resolved tt,
          advance ((EvUser <$> pre1 ++ pre2) ++ new ++
                   (EvUser <$> post2 ++ post1)) σ) ∧
       handlers_ran s σ new) ∧
  (∀ shapes,
     onions s (middlewareStack σ) shapes →
     ∃ new,
       processSignal o s σ =
         (Resolved tt,
          advance ((EvUser <$> concat shapes.*1) ++ new ++
                   (EvUser <$> concat (reverse shapes.*2))) σ) ∧
       handlers_ran s σ new) ∧
  (∀ m1 rest steps,
     middlewareStack σ = m1 :: rest →
     m1 s = short_circuit steps →
     processSignal o s σ = (Resolved tt, advance (EvUser <$> steps) σ) ∧
     called (EvUser <$> steps) = [] ∧
     user_steps (EvUser <$> steps) = steps ∧
     (transport o = createMemoryTransport →
      save (store o) s (trace σ) = None →
      (∀ tr, markAcked (store o) (sig_id s) tr = None) →
      ∃ σ', emit o s σ = (Resolved tt, σ') ∧
            called (drop (length (trace σ)) (trace σ')) = [] ∧
            user_steps (drop (length (trace σ)) (trace σ')) = steps ∧
            handledCount σ' = handledCount σ ∧
            errorCount σ' = errorCount σ)).
Proof.
  split; [|split].
  - intros m1 m2 pre1 post1 pre2 post2 Hst Hm1 Hm2.
    destruct (chain_onions o s [m1; m2] [(pre1, post1); (pre2, post2)] σ)
      as (new & E & Hran).
    { unfold onions; simpl. by rw Hm1 Hm2. }
    exists new. split; [|done].
    unfold processSignal. rw Hst E /= !app_nil_r. done.
  - intros shapes Hsh. by apply chain_onions.
  - intros m1 rest steps Hst Hm.
    pose proof (processSignal_short_circuit o s σ m1 rest steps Hst Hm) as E.
    pose proof (user_events_quiet steps) as (Hc & Ht & Hcl & _ & _ & _ & Hu).
    split; [done|]. split; [done|]. split; [done|].
    intros Htr Hsave Hack.
    eexists. split.
    { rw emit_unfold Hsave Htr run_memory_transport.
      rw (processSignal_short_circuit o s
            (advance [EvSave s; EvTransportEmit s] (set_emitted S σ))
            m1 rest steps Hst Hm) /= Hack.
      by rw !advance_app. }
    simpl. rw !drop_app_length.
    change (EvSave s :: EvTransportEmit s ::
              (EvUser <$> steps) ++ [EvMarkAcked (sig_id s)])
      with ([EvSave s; EvTransportEmit s] ++ (EvUser <$> steps) ++
            [EvMarkAcked (sig_id s)]).
    rw !called_app !user_steps_app !completed_app !threw_app Hcl Hu Hc Ht /=.
    rw app_nil_r. split; [done|]. split; [done|].
    unfold completed, threw; simpl. split; lia.
Qed.

Lemma middleware_onion_and_short_circuit_witness :
  (∃ new,
     processSignal Examples.quiet_options Examples.sig_x Examples.onion_bus =
       (Resolved tt,
        advance ((EvUser <$> ["m1-pre"] ++ ["m2-pre"]) ++ new ++
                 (EvUser <$> ["m2-post"] ++ ["m1-post"])) Examples.onion_bus) ∧
     handlers_ran Examples.sig_x Examples.onion_bus new) ∧
  (emit Examples.quiet_options Examples.sig_x Examples.dropping_bus).1 =
    Resolved tt.
Proof.
  split.
  - apply (proj1 (middleware_onion_and_short_circuit Examples.quiet_options
                    Examples.sig_x Examples.onion_bus)
             (fun _ => onion ["m1-pre"] ["m1-post"])
             (fun _ => onion ["m2-pre"] ["m2-post"])); reflexivity.
  - destruct (proj2 (proj2 (middleware_onion_and_short_circuit
                              Examples.quiet_options
                              Examples.sig_x Examples.dropping_bus))
                (fun _ => short_circuit []) [] [] eq_refl eq_refl)
      as (_ & _ & _ & Hemit).
    destruct (Hemit eq_refl eq_refl (fun _ => eq_refl)) as (σ' & E & _).
    by rw E.
Defined.


(** ** Errors *)




Lemma emit_by_transport (o : Options) (s : Signal) (σ : State) :
  emit o s σ =
    match save (store o) s (trace σ) with
    | Some e => (Rejected e, advance [EvSave s] (set_emitted S σ))
    | None =>
        match transport_emit o s (advance [EvSave s] (set_emitted S σ)) with
        | (Rejected e, σ2) => (Rejected e, σ2)
        | (Resolved _, σ2) =>
            (settled (markAcked (store o) (sig_id s) (trace σ2)),
             advance [EvMarkAcked (sig_id s)] σ2)
        end
    end.
Proof. by rw emit_unfold transport_emit_spec advance_app. Qed.



(** ** Replay *)

(** Whatever the middleware and the transport are, dispatch only appends
    events, none of them a call to the store or to the transport. *)
Lemma run_prog_appends (p : Prog) (next : M unit) :
  (∀ σ, ∃ new, (next σ).2 = advance new σ ∧ io new = []) →
  ∀ σ, ∃ new, (run_prog p next σ).2 = advance new σ ∧ io new = [].
Proof.
  intros Hnext.
  induction p as [|e|tag k IH|k IHk h IHh]; intros σ; simpl.
  - exists []. by rw advance_nil.
  - exists []. by rw advance_nil.
  - unfold seq, bind. rw log_user.
    destruct (IH (advance [EvUser tag] σ)) as (new & E & Hio).
    exists ([EvUser tag] ++ new). by rw E advance_app io_app Hio.
  - destruct (Hnext σ) as (n1 & E1 & Hio1).
    destruct (next σ) as [[[]|e] σ1]; simpl in E1; subst σ1.
    + destruct (IHk (advance n1 σ)) as (n2 & E2 & Hio2).
      exists (n1 ++ n2). by rw E2 advance_app io_app Hio1 Hio2.
    + destruct (IHh e (advance n1 σ)) as (n2 & E2 & Hio2).
      exists (n1 ++ n2). by rw E2 advance_app io_app Hio1 Hio2.
Qed.

Lemma build_chain_appends (o : Options) (s : Signal) (mws : list Middleware) :
  ∀ σ, ∃ new, (build_chain o s mws σ).2 = advance new σ ∧ io new = [].
Proof.
  induction mws as [|mw mws IH]; simpl.
  - intros σ. destruct (runHandlers_spec o s σ) as (new & E & _ & _ & _ & Hio).
    exists new. by rw E.
  - by apply run_prog_appends.
Qed.

Lemma processSignal_appends (o : Options) (s : Signal) (σ : State) :
  ∃ new, (processSignal o s σ).2 = advance new σ ∧ io new = [].
Proof. apply build_chain_appends. Qed.

Lemma transport_emit_appends (o : Options) (s : Signal) (σ : State) :
  ∃ new, (transport_emit o s σ).2 = advance new σ ∧ io new = [EvTransportEmit s].
Proof.
  rw transport_emit_spec.
  destruct (run_prog_appends (transport o s) (processSignal o s)
              (processSignal_appends o s) (advance [EvTransportEmit s] σ))
    as (new & E & Hio).
  exists ([EvTransportEmit s] ++ new). by rw E advance_app io_app Hio.
Qed.

Lemma replay_loop_cons (o : Options) (s : Signal) (l : list Signal) (σ : State) :
  replay_loop o (s :: l) σ =
    match transport_emit o s σ with
    | (Rejected e, σ1) => (Rejected e, σ1)
    | (Resolved _, σ1) =>
        match markAcked (store o) (sig_id s) (trace σ1) with
        | Some e => (Rejected e, advance [EvMarkAcked (sig_id s)] σ1)
        | None => replay_loop o l (advance [EvMarkAcked (sig_id s)] σ1)
        end
    end.
Proof.
  simpl. unfold seq, bind.
  destruct (transport_emit o s σ) as [[[]|e] σ1]; [|done].
  rw store_markAcked_spec.
  by destruct (markAcked (store o) (sig_id s) (trace σ1)).
Qed.

Lemma replay_loop_script (o : Options) (l : list Signal) (σ : State) :
  ∃ new,
    (replay_loop o l σ).2 = advance new σ ∧
    io new `prefix_of` (l ≫= ack_pair) ∧
    ((replay_loop o l σ).1 = Resolved tt → io new = l ≫= ack_pair).
Proof.
  revert σ. induction l as [|s l IH]; intros σ.
  - exists []. by rw advance_nil.
  - rw replay_loop_cons.
    change ((s :: l) ≫= ack_pair)
      with ([EvTransportEmit s; EvMarkAcked (sig_id s)] ++ (l ≫= ack_pair)).
    destruct (transport_emit_appends o s σ) as (n1 & E1 & Hio1).
    destruct (transport_emit o s σ) as [[[]|e] σ1]; simpl in E1; subst σ1.
    + destruct (markAcked (store o) (sig_id s) (trace (advance n1 σ))).
      * exists (n1 ++ [EvMarkAcked (sig_id s)]).
        rw advance_app io_app Hio1 /=. split; [done|].
        split; [|done]. by apply prefix_cons, prefix_cons, prefix_nil.
      * rw advance_app.
        destruct (IH (advance (n1 ++ [EvMarkAcked (sig_id s)]) σ))
          as (n2 & E2 & Hpre & Hfull).
        exists ((n1 ++ [EvMarkAcked (sig_id s)]) ++ n2).
        rw E2 !advance_app !io_app Hio1 /=.
        split; [done|]. split.
        -- by apply prefix_cons, prefix_cons.
        -- intros Hok. by rw Hfull.
    + exists n1. rw Hio1 /=. split; [done|]. split; [|done].
      apply prefix_cons, prefix_nil.
Qed.


Lemma replay_unfold (o : Options) (σ : State) (l : list Signal) :
  getUnacked (store o) (trace σ) = inr l →
  replay o σ =
    match replay_loop o l (advance [EvGetUnacked] σ) with
    | (Resolved _, σ') => (Resolved (length l), σ')
    | (Rejected e, σ') => (Rejected e, σ')
    end.
Proof.
  intros Hl. unfold replay, bind at 1, store_getUnacked. rw Hl.
  replace (set_trace (λ t, t ++ [EvGetUnacked]) σ)
    with (advance [EvGetUnacked] σ)
    by (destruct σ; unfold_ops; state_eq).
  unfold seq, bind.
  by destruct (replay_loop o l (advance [EvGetUnacked] σ)) as [[[]|e] σ'].
Qed.






End BusFacts.

(* ===================================================================== *)
(** * Properties of the test clock                                         *)
(* ===================================================================== *)

Module TestClockFacts.
Import TestClock.








(** ** [advanceBy] *)

Lemma test_run_cons (perf : nat → Q) (op : Op) (ops : list Op) (σ : State) :
  run perf (op :: ops) σ = run perf ops (step perf op σ).2.
Proof. done. Qed.










(** ** The accumulator *)







End TestClockFacts.

(* ===================================================================== *)
(** * Properties shared by the clocks                                      *)
(* ===================================================================== *)

Module ClockFacts.




(** ** Test clock *)





(** ** Bridge clock *)



(** ** Interval clock *)





(** ** Start *)






End ClockFacts.

(* ===================================================================== *)
(** * Properties of the bridge clock                                       *)
(* ===================================================================== *)

Module BridgeClockFacts.
Import BridgeClock.

Lemma bridge_run_snoc (wall : nat → Z) (op : Op) (ops : list Op) (σ : State) :
  run wall (ops ++ [op]) σ = (step wall op (run wall ops σ)).2.
Proof. unfold run. by rw foldl_snoc. Qed.

(** A running bridge clock has a handler. *)
Lemma running_has_handler (wall : nat → Z) (ops : list Op) :
  _running (run wall ops createBridgeClock) = true →
  is_Some (handler (run wall ops createBridgeClock)).
Proof.
  induction ops as [|op ops IH] using rev_ind; [done|].
  rw bridge_run_snoc.
  set (σ := run wall ops createBridgeClock) in *.
  destruct op as [h| | |i]; simpl.
  - unfold start. destruct (_running σ) eqn:Hr; simpl; [by auto|by eauto].
  - done.
  - unfold push. destruct (_running σ) eqn:Hr; [|by rw /= Hr].
    destruct (handler σ) as [h|] eqn:Hh; [|by rw /= Hr Hh].
    destruct (call_handler h _ σ) as [[| |p]|err]; simpl; by eauto.
  - unfold settle. destruct (pending σ !! i) as [[start r]|]; simpl; auto.
Qed.

(** C9.  On a bridge clock, however it was used before: [push] never
    throws; while the clock is running it hands exactly one tick to the
    handler, with reason "bridge" and the next sequence number, and an
    error thrown by the handler is counted in [errors]; while the clock is
    not running it changes nothing. *)
Theorem push_ticks_once_when_running (wall : nat → Z) (ops : list Op) :
  let σ := run wall ops createBridgeClock in
  let σ' := (push wall σ).2 in
  (push wall σ).1 = Resolved tt ∧
  (_running σ = true →
   ∃ tick,
     fired σ' = fired σ ++ [tick] ∧
     Clock.reason tick = Clock.bridge ∧
     Clock.seq tick = seq σ ∧
     Clock.ts tick = now wall σ ∧
     seq σ' = S (seq σ) ∧
     Clock.tickCount (stats σ') = S (Clock.tickCount (stats σ)) ∧
     (∀ h e, handler σ = Some h → h tick (fired σ) = Clock.Throws e →
             Clock.errors (stats σ') = S (Clock.errors (stats σ))) ∧
     (∀ h, handler σ = Some h → h tick (fired σ) = Clock.Returns →
           Clock.errors (stats σ') = Clock.errors (stats σ))) ∧
  (_running σ = false → push wall σ = (Resolved tt, σ)).
Proof.
  intros σ σ'.
  pose proof (running_has_handler wall ops) as Hwf. fold σ in Hwf.
  subst σ'. unfold push.
  destruct (_running σ) eqn:Hr; [|done].
  destruct Hwf as [h Hh]; [done|]. rw Hh.
  split; [by destruct (call_handler h _ σ) as [[| |p]|err]|].
  split; [|done]. intros _.
  eexists. unfold call_handler.
  destruct (h _ (fired σ)) as [|err|p] eqn:Hcall; simpl;
    do 6 (split; [done|]); split.
  - intros h' e' [= <-] Hc. rw Hcall in Hc. discriminate Hc.
  - done.
  - done.
  - intros h' [= <-] Hc. rw Hcall in Hc. discriminate Hc.
  - intros h' e' [= <-] Hc. rw Hcall in Hc. discriminate Hc.
  - intros h' [= <-] Hc. rw Hcall in Hc. discriminate Hc.
Qed.

Lemma push_ticks_once_when_running_witness :
  Clock.errors
    (stats (push Examples.wall
              (run Examples.wall [OpStart Examples.boom_handler]
                   createBridgeClock)).2) = 1%nat ∧
  push Examples.wall
       (run Examples.wall [OpStart Examples.ok_handler; OpPush; OpStop]
            createBridgeClock) =
    (Resolved tt,
     run Examples.wall [OpStart Examples.ok_handler; OpPush; OpStop]
         createBridgeClock).
Proof.
  split.
  - destruct (push_ticks_once_when_running Examples.wall
                [OpStart Examples.boom_handler]) as (_ & Hrun & _).
    destruct (Hrun eq_refl) as (tick & _ & _ & _ & _ & _ & _ & Herr & _).
    apply (Herr Examples.boom_handler "boom" eq_refl eq_refl).
  - apply (push_ticks_once_when_running Examples.wall
             [OpStart Examples.ok_handler; OpPush; OpStop]).
    reflexivity.
Defined.

End BridgeClockFacts.

(* ===================================================================== *)
(** * Properties of the interval clock                                     *)
(* ===================================================================== *)

Module IntervalClockFacts.
Import IntervalClock.

Lemma interval_run_snoc (o : IntervalClockOptions) (wall : nat → Z) (a : Action)
    (acts : list Action) (σ : State) :
  run o wall (acts ++ [a]) σ = act o wall a (run o wall acts σ).
Proof. unfold run. by rw foldl_snoc. Qed.

(** ** The threshold *)

Lemma high_drift_ratio (o : IntervalClockOptions) (d : Z) :
  high_drift o d = true ↔
  (inject_Z (intervalMs o) * DRIFT_WARN_RATIO < inject_Z (Z.abs d))%Q.
Proof.
  unfold high_drift. destruct (Qlt_le_dec _ _) as [Hlt|Hle].
  - done.
  - split; [done|]. intros Hlt. by apply Qle_not_lt in Hle.
Qed.

Lemma high_drift_integers (o : IntervalClockOptions) (d : Z) :
  high_drift o d = true ↔ 4 * intervalMs o < 5 * Z.abs d.
Proof.
  rw high_drift_ratio. unfold Qlt, DRIFT_WARN_RATIO; simpl. lia.
Qed.

(** ** The counter *)

Lemma high_run_snoc (o : IntervalClockOptions) (ds : list Z) (d : Z) :
  high_run o (ds ++ [d]) =
    if high_drift o d then S (high_run o ds) else 0%nat.
Proof. unfold high_run. by rw reverse_snoc. Qed.

Lemma leading_high_take (o : IntervalClockOptions) (n : nat) (l : list Z) :
  (n ≤ leading_high o l)%nat →
  length (take n l) = n ∧ Forall (fun x => high_drift o x = true) (take n l).
Proof.
  revert l. induction n as [|n IH]; intros l Hn; [done|].
  destruct l as [|d l]; simpl in *; [lia|].
  destruct (high_drift o d) eqn:Hd; [|lia].
  destruct (IH l) as [Hlen Hall]; [lia|].
  split; [by rw Hlen | by constructor].
Qed.

(** [n] high-drift ticks in a row end the list when [high_run] is at
    least [n]. *)
Lemma high_run_last (o : IntervalClockOptions) (n : nat) (ds : list Z) :
  (n ≤ high_run o ds)%nat →
  ∃ before last,
    ds = before ++ last ∧ length last = n ∧
    Forall (fun x => high_drift o x = true) last.
Proof.
  intros Hn. destruct (leading_high_take o n (reverse ds) Hn) as [Hlen Hall].
  exists (reverse (skipn n (reverse ds))), (reverse (take n (reverse ds))).
  split; [|split].
  - by rw -reverse_app take_drop reverse_involutive.
  - by rw length_reverse.
  - by apply Forall_reverse.
Qed.


Lemma act_keeps_handler (o : IntervalClockOptions) (wall : nat → Z)
    (a : Action) (σ : State) :
  handler (act o wall a σ) = handler σ.
Proof.
  destruct a as [reason d|i]; simpl.
  - unfold fireTick_enter. destruct (handler σ) eqn:Hh; simpl; done.
  - unfold fireTick_resume. by destruct (inflight σ !! i) as [[start r]|].
Qed.

Lemma run_keeps_handler (o : IntervalClockOptions) (wall : nat → Z)
    (acts : list Action) (σ : State) :
  handler (run o wall acts σ) = handler σ.
Proof.
  induction acts as [|a acts IH] using rev_ind; [done|].
  by rw interval_run_snoc act_keeps_handler.
Qed.

(** One call [fireTick(reason, d)] while a handler is registered. *)
Lemma fireTick_enter_counts (o : IntervalClockOptions) (wall : nat → Z)
    (reason : Clock.Reason) (d : Z) (σ : State) (h : Clock.TickHandler) :
  handler σ = Some h →
  let σ' := fireTick_enter o wall reason (Some d) σ in
  consecutiveHighDrift σ' =
    (if high_drift o d then S (consecutiveHighDrift σ) else 0%nat) ∧
  ∃ tick,
    events σ' =
      events σ ++
      (if onDriftWarning o && (DRIFT_WARN_COUNT <=? consecutiveHighDrift σ')%nat
       then [EvDriftWarning d] else []) ++ [EvTick tick] ∧
    Clock.drift tick = Some d ∧ Clock.reason tick = reason ∧
    Clock.seq tick = seq σ.
Proof.
  intros Hh σ'. subst σ'. unfold fireTick_enter. rw Hh /=.
  split; [done|].
  exists (Clock.mkTick (wall (wall_reads σ)) (_seq σ) reason (Some d)).
  split; [|done].
  f_equal. f_equal.
  destruct (high_drift o d), (onDriftWarning o);
    rw /= ?andb_true_r ?andb_false_r //.
Qed.

Lemma counter_is_high_run (o : IntervalClockOptions) (wall : nat → Z)
    (h : Clock.TickHandler) (acts : list Action) (σ0 : State) :
  handler σ0 = Some h →
  consecutiveHighDrift σ0 = 0%nat →
  consecutiveHighDrift (run o wall acts σ0) = high_run o (drifts acts).
Proof.
  intros Hh H0.
  induction acts as [|a acts IH] using rev_ind; [done|].
  rw interval_run_snoc. unfold drifts. rw omap_app. fold (drifts acts).
  destruct a as [reason d|i]; simpl.
  - destruct (fireTick_enter_counts o wall reason d (run o wall acts σ0) h)
      as [-> _]; [by rw run_keeps_handler|].
    by rw high_run_snoc IH.
  - rw app_nil_r -IH. unfold fireTick_resume.
    by destruct (inflight _ !! i) as [[start r]|].
Qed.

(** C8.  In an epoch of the interval clock, for each tick fired with a
    drift [d]: if |d| exceeds intervalMs * 0.8 the counter of consecutive
    high-drift ticks grows by one, else it becomes 0; the counter is the
    number of high-drift ticks in a row up to this one; [onDriftWarning(d)]
    is called at this tick exactly when the counter has reached 5 (it is at
    least 5), that is, only when this tick and the four before it were all
    high-drift ticks. *)
Theorem drift_warning_after_five_in_a_row (o : IntervalClockOptions)
    (wall : nat → Z) (h : Clock.TickHandler) (σ σ0 : State)
    (acts : list Action) (reason : Clock.Reason) (d : Z) :
  start o wall h σ = (Resolved tt, σ0) →
  let σ1 := run o wall acts σ0 in
  let σ2 := fireTick_enter o wall reason (Some d) σ1 in
  (high_drift o d = true ↔
   (inject_Z (intervalMs o) * DRIFT_WARN_RATIO < inject_Z (Z.abs d))%Q) ∧
  (high_drift o d = true ↔ 4 * intervalMs o < 5 * Z.abs d) ∧
  (high_drift o d = true →
   consecutiveHighDrift σ2 = S (consecutiveHighDrift σ1)) ∧
  (high_drift o d = false → consecutiveHighDrift σ2 = 0%nat) ∧
  consecutiveHighDrift σ1 = high_run o (drifts acts) ∧
  consecutiveHighDrift σ2 = high_run o (drifts acts ++ [d]) ∧
  (∃ tick,
     events σ2 =
       events σ1 ++
       (if onDriftWarning o && (5 <=? consecutiveHighDrift σ2)%nat
        then [EvDriftWarning d] else []) ++ [EvTick tick] ∧
     Clock.drift tick = Some d) ∧
  ((5 ≤ consecutiveHighDrift σ2)%nat →
   ∃ before last,
     drifts acts ++ [d] = before ++ last ∧ length last = 5%nat ∧
     Forall (fun x => high_drift o x = true) last).
Proof.
  intros Hstart σ1 σ2.
  assert (Hσ0 : handler σ0 = Some h ∧ consecutiveHighDrift σ0 = 0%nat).
  { unfold start in Hstart. destruct (_running σ); [done|].
    by injection Hstart as <-. }
  destruct Hσ0 as [Hh H0].
  assert (Hh1 : handler σ1 = Some h) by (subst σ1; by rw run_keeps_handler).
  pose proof (counter_is_high_run o wall h acts σ0 Hh H0) as Hc1.
  fold σ1 in Hc1.
  destruct (fireTick_enter_counts o wall reason d σ1 h Hh1)
    as (Hc2 & tick & Hev & Hdrift & _).
  fold σ2 in Hc2, Hev.
  assert (Hrun2 : consecutiveHighDrift σ2 = high_run o (drifts acts ++ [d])).
  { by rw Hc2 high_run_snoc Hc1. }
  split; [apply high_drift_ratio|].
  split; [apply high_drift_integers|].
  split; [intros Hd; by rw Hc2 Hd|].
  split; [intros Hd; by rw Hc2 Hd|].
  split; [done|]. split; [done|].
  split; [by exists tick|].
  intros H5. rw Hrun2 in H5. by apply high_run_last.
Qed.

Lemma drift_warning_after_five_in_a_row_witness :
  consecutiveHighDrift
    (fireTick_enter Examples.drop_options Examples.wall Clock.interval (Some 90)
       (run Examples.drop_options Examples.wall
          [Fire Clock.interval 81; Fire Clock.catchup 95]
          (start Examples.drop_options Examples.wall Examples.ok_handler
             Examples.new_interval_clock).2)) = 3%nat.
Proof.
  destruct (drift_warning_after_five_in_a_row Examples.drop_options
              Examples.wall Examples.ok_handler Examples.new_interval_clock
              _ [Fire Clock.interval 81; Fire Clock.catchup 95]
              Clock.interval 90 eq_refl) as (_ & _ & _ & _ & _ & Hrun & _).
  exact Hrun.
Defined.

End IntervalClockFacts.

(* ===================================================================== *)
(** * The bus over its whole life: protocol, counters, tables             *)
(* ===================================================================== *)

Module BusStateFacts.
Import Bus BusFacts.

(** ** What [emit] and [replay] append *)


Lemma emit_appends (o : Options) (s : Signal) (σ : State) :
  ∃ new,
    (emit o s σ).2 = advance new (set_emitted S σ) ∧
    head new = Some (EvSave s) ∧
    io new `prefix_of` emit_script s ∧
    ((emit o s σ).1 = Resolved tt → io new = emit_script s) ∧
    (∀ e, save (store o) s (trace σ) = Some e →
          emit o s σ = (Rejected e, advance new (set_emitted S σ)) ∧
          new = [EvSave s]) ∧
    (∀ e σ2, save (store o) s (trace σ) = None →
             transport_emit o s (advance [EvSave s] (set_emitted S σ)) =
               (Rejected e, σ2) →
             io new = [EvSave s; EvTransportEmit s]).
Proof.
  rw emit_by_transport.
  destruct (save (store o) s (trace σ)) as [e|].
  { exists [EvSave s]. split; [done|]. split; [done|].
    split; [by apply prefix_cons, prefix_nil|].
    split; [done|]. split; [|done]. intros e' [= <-]. done. }
  destruct (transport_emit_appends o s (advance [EvSave s] (set_emitted S σ)))
    as (n1 & E1 & Hio1).
  destruct (transport_emit o s (advance [EvSave s] (set_emitted S σ)))
    as [[[]|e] σ1]; simpl in E1; subst σ1.
  - exists ([EvSave s] ++ n1 ++ [EvMarkAcked (sig_id s)]).
    split; [by rw /= !advance_app|]. split; [done|]. rw !io_app Hio1.
    split; [done|]. split; [done|]. split; [done|]. done.
  - exists ([EvSave s] ++ n1).
    split; [by rw /= !advance_app|]. split; [done|]. rw !io_app Hio1.
    split; [by apply prefix_cons, prefix_cons, prefix_nil|].
    split; [done|]. split; [done|]. done.
Qed.

Lemma replay_appends (o : Options) (σ : State) :
  ∃ new, (replay o σ).2 = advance new σ.
Proof.
  destruct (getUnacked (store o) (trace σ)) as [e|l] eqn:Hl.
  - exists [EvGetUnacked]. unfold replay, bind, store_getUnacked. rw Hl /=.
    destruct σ; unfold_ops; state_eq.
  - rw (replay_unfold o σ l Hl).
    destruct (replay_loop_script o l (advance [EvGetUnacked] σ)) as (n & E & _).
    exists ([EvGetUnacked] ++ n). rw -advance_app -E.
    by destruct (replay_loop o l (advance [EvGetUnacked] σ)) as [[[]|e] σ'].
Qed.





(** ** The subscription tables over a run *)

Lemma step_tables (o : Options) (op : Op) (σ : State) :
  match op with
  | OpOn _ _ | OpUnsubscribe (UnsubOn _ _) | OpClear => True
  | _ => typeHandlers (step o op σ) = typeHandlers σ ∧
         arrays (step o op σ) = arrays σ
  end.
Proof.
  destruct op as [ty h|h|[r h|h]|mw| |s|]; try done.
  - destruct (emit_appends o s σ) as (n & E & _). simpl. by rw E.
  - destruct (replay_appends o σ) as (n & E). simpl. by rw E.
Qed.

Lemma on_tables (ty : string) (h : Handler) (σ : State) :
  (length (arrays σ) ≤ length (arrays (on ty h σ).2))%nat ∧
  ∀ ty' r, typeHandlers (on ty h σ).2 !! ty' = Some r →
           typeHandlers σ !! ty' = Some r ∨
           (ty' = ty ∧ r = length (arrays σ)).
Proof.
  unfold on. destruct (typeHandlers σ !! ty) as [r0|] eqn:Hty; simpl.
  - rw length_alter. split; [done|]. intros ty' r Hr. by left.
  - rw length_alter length_app /=. split; [lia|]. intros ty' r Hr.
    destruct (decide (ty' = ty)) as [->|Hne].
    + rw lookup_insert_eq in Hr. right. by injection Hr as <-.
    + rw lookup_insert_ne in Hr; [|done]. by left.
Qed.

Lemma only_for_step (o : Options) (op : Op) (r : nat) (ty : string) (σ : State) :
  only_for r ty σ → only_for r ty (step o op σ).
Proof.
  intros [Hlen Hown].
  destruct op as [ty0 h|h|[r0 h|h]|mw| |s|].
  - destruct (on_tables ty0 h σ) as [Hle Hin].
    change (step o (OpOn ty0 h) σ) with (on ty0 h σ).2.
    split; [lia|].
    intros ty' Hr. destruct (Hin ty' r Hr) as [Hold|[_ ->]]; [by apply Hown|lia].
  - done.
  - split; [by rw /= length_alter|done].
  - done.
  - done.
  - split; [done|]. intros ty' Hr. simpl in Hr. by rw lookup_empty in Hr.
  - destruct (step_tables o (OpEmit s) σ) as [Hth Har]. split; [by rw Har|by rw Hth].
  - destruct (step_tables o OpReplay σ) as [Hth Har]. split; [by rw Har|by rw Hth].
Qed.

Lemma only_for_run (o : Options) (ops : list Op) (r : nat) (ty : string)
    (σ : State) :
  only_for r ty σ → only_for r ty (run o ops σ).
Proof.
  revert σ. induction ops as [|op ops IH]; intros σ H; [done|].
  apply IH. by apply only_for_step.
Qed.

Lemma detached_step (o : Options) (op : Op) (r : nat) (σ : State) :
  detached r σ → detached r (step o op σ).
Proof.
  intros [Hlen Hno].
  destruct op as [ty0 h|h|[r0 h|h]|mw| |s|].
  - destruct (on_tables ty0 h σ) as [Hle Hin].
    change (step o (OpOn ty0 h) σ) with (on ty0 h σ).2.
    split; [lia|].
    intros ty' Hr. destruct (Hin ty' r Hr) as [Hold|[_ ->]]; [by eapply Hno|lia].
  - done.
  - split; [by rw /= length_alter|done].
  - done.
  - done.
  - split; [done|]. intros ty' Hr. simpl in Hr. by rw lookup_empty in Hr.
  - destruct (step_tables o (OpEmit s) σ) as [Hth Har]. split; [by rw Har|by rw Hth].
  - destruct (step_tables o OpReplay σ) as [Hth Har]. split; [by rw Har|by rw Hth].
Qed.

Lemma detached_run (o : Options) (ops : list Op) (r : nat) (σ : State) :
  detached r σ → detached r (run o ops σ).
Proof.
  revert σ. induction ops as [|op ops IH]; intros σ H; [done|].
  apply IH. by apply detached_step.
Qed.

Lemma refs_valid_only_for (σ : State) :
  refs_valid σ ↔ ∀ ty r, typeHandlers σ !! ty = Some r → only_for r ty σ.
Proof. done. Qed.

Lemma refs_valid_step (o : Options) (op : Op) (σ : State) :
  refs_valid σ → refs_valid (step o op σ).
Proof.
  intros Hv.
  destruct op as [ty0 h|h|[r0 h|h]|mw| |s|].
  - by apply on_appends.
  - done.
  - intros ty r Hr. simpl in *. rw length_alter. by apply Hv.
  - done.
  - done.
  - intros ty r Hr. simpl in Hr. by rw lookup_empty in Hr.
  - destruct (step_tables o (OpEmit s) σ) as [Hth Har].
    intros ty r Hr. rw Hth Har. rw Hth in Hr. by apply Hv.
  - destruct (step_tables o OpReplay σ) as [Hth Har].
    intros ty r Hr. rw Hth Har. rw Hth in Hr. by apply Hv.
Qed.

Lemma refs_valid_run (o : Options) (ops : list Op) (σ : State) :
  refs_valid σ → refs_valid (run o ops σ).
Proof.
  revert σ. induction ops as [|op ops IH]; intros σ H; [done|].
  apply IH. by apply refs_valid_step.
Qed.

(** An unsubscribe closure of [on] acts on its own array only. *)
Lemma unsubscribe_other_type (r : nat) (h : Handler) (ty ty' : string)
    (σ : State) :
  only_for r ty σ → ty' ≠ ty →
  handlers_for (call_unsubscribe (UnsubOn r h) σ) ty' = handlers_for σ ty'.
Proof.
  intros [_ Hown] Hne. unfold handlers_for. simpl.
  destruct (typeHandlers σ !! ty') as [r'|] eqn:Hr'; [|done].
  rw list_lookup_alter_ne; [done|].
  intros ->. by apply Hne, Hown.
Qed.

Lemma unsubscribe_detached (r : nat) (h : Handler) (ty : string) (σ : State) :
  detached r σ →
  handlers_for (call_unsubscribe (UnsubOn r h) σ) ty = handlers_for σ ty.
Proof.
  intros [_ Hno]. unfold handlers_for. simpl.
  destruct (typeHandlers σ !! ty) as [r'|] eqn:Hr'; [|done].
  rw list_lookup_alter_ne; [done|].
  intros ->. by eapply Hno.
Qed.


(** ** Counting registrations *)

Lemma sum_insert (f : string → nat → nat) (m : gmap string nat) (k : string)
    (r : nat) :
  m !! k = None →
  map_fold (fun k r acc => (acc + f k r)%nat) 0%nat (<[k := r]> m) =
    (map_fold (fun k r acc => (acc + f k r)%nat) 0%nat m + f k r)%nat.
Proof.
  intros Hk. rw map_fold_insert_L; [done| |done].
  intros. lia.
Qed.

Lemma sum_ext (f g : string → nat → nat) (m : gmap string nat) :
  (∀ k r, m !! k = Some r → f k r = g k r) →
  map_fold (fun k r acc => (acc + f k r)%nat) 0%nat m =
    map_fold (fun k r acc => (acc + g k r)%nat) 0%nat m.
Proof.
  induction m as [|k r m Hk IH] using map_ind; intros Hfg.
  - by rw !map_fold_empty.
  - rw (sum_insert f m k r Hk) (sum_insert g m k r Hk).
    rw IH.
    + f_equal. apply Hfg. by rw lookup_insert_eq.
    + intros k' r' Hk'. apply Hfg. rw lookup_insert_ne; [done|].
      intros ->. by rw Hk in Hk'.
Qed.

Lemma sum_delete (f : string → nat → nat) (m : gmap string nat) (k : string) :
  map_fold (fun k r acc => (acc + f k r)%nat) 0%nat m =
    (map_fold (fun k r acc => (acc + f k r)%nat) 0%nat (delete k m) +
     match m !! k with Some r => f k r | None => 0 end)%nat.
Proof.
  destruct (m !! k) as [r|] eqn:Hk.
  - rw -{1}(insert_delete_id m k r Hk). rw sum_insert; [done|].
    by rw lookup_delete_eq.
  - rw delete_id; [lia|done].
Qed.

(** [stats().handlers] adds up the lengths of the handler lists. *)
Lemma handlers_count (σ : State) :
  st_handlers (stats σ) =
    map_fold (fun k _ acc => (acc + length (handlers_for σ k))%nat) 0%nat
             (typeHandlers σ).
Proof.
  simpl.
  apply (sum_ext (fun _ r => length (default [] (arrays σ !! r)))
                 (fun k _ => length (handlers_for σ k))).
  intros k r Hk. unfold handlers_for. by rw Hk.
Qed.

Lemma handlers_count_change (σ σ' : State) (ty : string) :
  (∀ ty', ty' ≠ ty → typeHandlers σ' !! ty' = typeHandlers σ !! ty') →
  (∀ ty', ty' ≠ ty → handlers_for σ' ty' = handlers_for σ ty') →
  (st_handlers (stats σ') + length (handlers_for σ ty))%nat =
    (st_handlers (stats σ) + length (handlers_for σ' ty))%nat.
Proof.
  intros Hth Hhf.
  assert (∀ τ, (match typeHandlers τ !! ty with
                | Some _ => length (handlers_for τ ty)
                | None => 0
                end = length (handlers_for τ ty))%nat) as Hty.
  { intros τ. unfold handlers_for. by destruct (typeHandlers τ !! ty). }
  rw !handlers_count.
  rw (sum_delete (fun k _ => length (handlers_for σ' k)) (typeHandlers σ') ty).
  rw (sum_delete (fun k _ => length (handlers_for σ k)) (typeHandlers σ) ty).
  rw !Hty.
  assert (delete ty (typeHandlers σ') = delete ty (typeHandlers σ)) as ->.
  { apply map_eq. intros k. destruct (decide (k = ty)) as [->|Hne].
    - by rw !lookup_delete_eq.
    - assert (ty ≠ k) as Hne' by done.
      rw (lookup_delete_ne _ ty k Hne') (lookup_delete_ne _ ty k Hne').
      by apply Hth. }
  rw (sum_ext (fun k _ => length (handlers_for σ' k))
              (fun k _ => length (handlers_for σ k))); [lia|].
  intros k r Hk. destruct (decide (k = ty)) as [->|Hne].
  - by rw lookup_delete_eq in Hk.
  - by rw Hhf.
Qed.

Lemma length_unsubscribe_from (h : Handler) (l : list Handler) :
  (length (unsubscribe_from h l) + (if decide (h ∈ l) then 1 else 0))%nat =
    length l.
Proof.
  destruct (decide (h ∈ l)) as [Hin|Hout].
  - apply list_elem_of_split in Hin as (l1 & l2 & ->).
    revert l2. induction l1 as [|x l1 IH]; intros l2.
    + rw unsubscribe_from_cons_eq /=. lia.
    + destruct (decide (x = h)) as [->|Hne].
      * rw /= unsubscribe_from_cons_eq /=. lia.
      * rw /= unsubscribe_from_cons_ne; [|done]. simpl. rw -(IH l2). lia.
  - rw unsubscribe_from_absent; [lia|done].
Qed.


Lemma on_only_for (ty : string) (h : Handler) (σ : State) :
  refs_valid σ →
  ∃ r, (on ty h σ).1 = UnsubOn r h ∧
       typeHandlers (on ty h σ).2 !! ty = Some r ∧
       only_for r ty (on ty h σ).2.
Proof.
  intros Hv. destruct (on_ref ty h σ) as (r & Hu & Hr).
  exists r. split; [done|]. split; [done|].
  destruct (on_appends ty h σ Hv) as (_ & _ & Hv').
  by apply Hv'.
Qed.

Lemma on_other_keys (ty ty' : string) (h : Handler) (σ : State) :
  ty' ≠ ty → typeHandlers (on ty h σ).2 !! ty' = typeHandlers σ !! ty'.
Proof.
  intros Hne. unfold on.
  destruct (typeHandlers σ !! ty) as [r0|] eqn:Hty; simpl; [done|].
  by rw lookup_insert_ne.
Qed.

Lemma reachable_valid (o : Options) (ops : list Op) :
  refs_valid (run o ops createSignalBus).
Proof. apply refs_valid_run, refs_valid_new. Qed.

Lemma nothing_ran (new : list Event) :
  called new = [] → reported new = thrown new → user_steps new = [] →
  io new = [] → new = [].
Proof.
  intros Hc Hr Hu Hio.
  assert (thrown new = []) as Ht.
  { clear Hr Hu Hio. induction new as [|ev new IH]; [done|].
    destruct ev as [| | | |h s0 r| |]; simpl in *; try by apply IH.
    done. }
  rw Ht in Hr.
  destruct new as [|ev new]; [done|].
  by destruct ev.
Qed.

(** X3.  [clear] removes every handler and every middleware and keeps the
    three counters: the sizes reported by [stats] are 0, no handler is
    registered for any type, and with the default transport and store the
    next [emit] resolves having called the store and the transport only. *)
Theorem clear_removes_all_registrations (o : Options) (s : Signal) (σ : State) :
  default_layers o →
  stats (clear σ) =
    mkBusStats (st_emitted (stats σ)) (st_handled (stats σ))
               (st_errors (stats σ)) 0 0 0 ∧
  (∀ ty, registered (clear σ) ty = []) ∧
  emit o s (clear σ) =
    (Resolved tt, advance (emit_script s) (set_emitted S (clear σ))).
Proof.
  intros Hdef. split; [done|]. split; [done|].
  destruct (emit_default_onions o s (clear σ) [] Hdef eq_refl)
    as (new & E & Hcalled & Hrep & Huser & Hio).
  assert (new = []) as ->; [|done].
  by apply nothing_ran.
Qed.

Lemma clear_removes_all_registrations_witness :
  st_handlers (stats (clear Examples.onion_bus)) = 0%nat ∧
  (emit Examples.quiet_options Examples.sig_x (clear Examples.onion_bus)).1 =
    Resolved tt.
Proof.
  destruct (clear_removes_all_registrations Examples.quiet_options
              Examples.sig_x Examples.onion_bus) as (Hs & _ & He).
  - by split.
  - split; [by rw Hs|by rw He].
Defined.

(** X4.  What an unsubscribe closure does once [clear] has been called.
    The closure of [on] holds the handler array that [clear] dropped from
    the map: whatever is registered afterwards, also the same handler for
    the same type, calling it changes no handler list.  The closure of
    [onAny] holds the array that [clear] emptied in place: called after a
    new registration of its handler, it removes that registration. *)
Theorem unsubscribe_after_clear (o : Options) (before after : list Op)
    (ty : string) (h : Handler) :
  (let σ := run o before createSignalBus in
   let σ2 := run o after (clear (on ty h σ).2) in
   let u := (on ty h σ).1 in
   (∀ ty', handlers_for (call_unsubscribe u σ2) ty' = handlers_for σ2 ty') ∧
   anyHandlers (call_unsubscribe u σ2) = anyHandlers σ2 ∧
   st_handlers (stats (call_unsubscribe u σ2)) = st_handlers (stats σ2)) ∧
  (∀ σ, let σ2 := (onAny h (clear (onAny h σ).2)).2 in
        let u := (onAny h σ).1 in
        anyHandlers σ2 = [h] ∧
        anyHandlers (call_unsubscribe u σ2) = []).
Proof.
  split.
  - intros σ σ2 u.
    destruct (on_only_for ty h σ (reachable_valid o before))
      as (r & Hu & Hr & Hlen & _).
    subst u. rw Hu.
    assert (detached r σ2) as Hdet.
    { apply detached_run. split; [done|]. intros ty'. simpl.
      by rw lookup_empty. }
    assert (∀ ty', handlers_for (call_unsubscribe (UnsubOn r h) σ2) ty' =
                   handlers_for σ2 ty') as Hsame.
    { intros ty'. by apply unsubscribe_detached. }
    split; [done|]. split; [done|].
    pose proof (handlers_count_change σ2 (call_unsubscribe (UnsubOn r h) σ2) ty)
      as Hc.
    rw Hsame in Hc. ospecialize* Hc; [done|done|lia].
  - intros σ σ2 u. split; [done|].
    simpl. by rw unsubscribe_from_cons_eq.
Qed.

(** X5.  [stats().handlers] follows the typed registrations.  On a bus in
    any reachable state, [on] raises it by one and the returned unsubscribe,
    called next, takes it back; called at any later time it lowers the
    count by one when its handler is still in the list the type refers to,
    and leaves it alone otherwise. *)
Theorem handler_count_follows_registrations (o : Options)
    (before after : list Op) (ty : string) (h : Handler) :
  let σ := run o before createSignalBus in
  let σ1 := (on ty h σ).2 in
  let u := (on ty h σ).1 in
  st_handlers (stats σ1) = S (st_handlers (stats σ)) ∧
  st_handlers (stats (call_unsubscribe u σ1)) = st_handlers (stats σ) ∧
  let σ2 := run o after σ1 in
  (st_handlers (stats (call_unsubscribe u σ2)) +
   (if decide (typeHandlers σ2 !! ty = list_of u ∧ h ∈ handlers_for σ2 ty)
    then 1 else 0))%nat = st_handlers (stats σ2).
Proof.
  intros σ σ1 u.
  pose proof (reachable_valid o before) as Hv. fold σ in Hv.
  destruct (on_only_for ty h σ Hv) as (r & Hu & Hr & Hown).
  destruct (on_appends ty h σ Hv) as (Happ & Hother & Hv1).
  fold σ1 in Hr, Hown, Happ, Hother, Hv1. subst u. rw Hu.
  assert (∀ τ, only_for r ty τ →
            (st_handlers (stats (call_unsubscribe (UnsubOn r h) τ)) +
             (if decide (typeHandlers τ !! ty = Some r ∧ h ∈ handlers_for τ ty)
              then 1 else 0))%nat = st_handlers (stats τ)) as Hlater.
  { intros τ Hτ.
    pose proof (handlers_count_change τ (call_unsubscribe (UnsubOn r h) τ) ty)
      as Hc.
    ospecialize* Hc; [done| |].
    { intros ty' Hne. by apply (unsubscribe_other_type r h ty). }
    destruct (decide (typeHandlers τ !! ty = Some r)) as [Hlive|Hstale].
    - rw (handlers_for_alter (unsubscribe_from h) τ ty r eq_refl Hlive) in Hc.
      pose proof (length_unsubscribe_from h (handlers_for τ ty)) as Hl.
      destruct (decide (h ∈ handlers_for τ ty)) as [Hin|Hout].
      + rw decide_True; [lia|done].
      + rw decide_False; [lia|by intros [_ ?]].
    - rw decide_False; [|by intros [? _]].
      rw (unsubscribe_detached r h ty τ) in Hc; [lia|].
      destruct Hτ as [Hlen Hτ]. split; [done|].
      intros ty' Hr'. apply Hstale. by rw -(Hτ ty' Hr'). }
  split; [|split].
  - pose proof (handlers_count_change σ σ1 ty) as Hc.
    ospecialize* Hc.
    + intros ty' Hne. by apply on_other_keys.
    + done.
    + rw Happ length_app in Hc. simpl length in Hc. lia.
  - pose proof (Hlater σ1 Hown) as Hl.
    rw decide_True in Hl;
      [|split; [done|]; rw Happ; apply elem_of_app; right; by left].
    pose proof (handlers_count_change σ σ1 ty) as Hc.
    ospecialize* Hc.
    + intros ty' Hne. by apply on_other_keys.
    + done.
    + rw Happ length_app in Hc. simpl length in Hc. lia.
  - intros σ2. apply Hlater. by apply only_for_run.
Qed.

(** X6.  Typed registrations are independent of each other and of the
    any-handlers.  On a bus in any reachable state, [on(ty, h)] changes the
    handler list of [ty] only, and its unsubscribe, whenever it is called
    afterwards, leaves the handlers of every other type, the any-handlers,
    the middleware stack and the counters as they are. *)
Theorem unsubscribe_keeps_other_types (o : Options) (before after : list Op)
    (ty : string) (h : Handler) :
  let σ := run o before createSignalBus in
  let σ1 := (on ty h σ).2 in
  let u := (on ty h σ).1 in
  (∀ ty', ty' ≠ ty → handlers_for σ1 ty' = handlers_for σ ty') ∧
  anyHandlers σ1 = anyHandlers σ ∧
  let σ2 := run o after σ1 in
  let σ3 := call_unsubscribe u σ2 in
  (∀ ty', ty' ≠ ty → handlers_for σ3 ty' = handlers_for σ2 ty') ∧
  anyHandlers σ3 = anyHandlers σ2 ∧
  middlewareStack σ3 = middlewareStack σ2 ∧
  (st_emitted (stats σ3), st_handled (stats σ3), st_errors (stats σ3)) =
    (st_emitted (stats σ2), st_handled (stats σ2), st_errors (stats σ2)).
Proof.
  intros σ σ1 u.
  pose proof (reachable_valid o before) as Hv. fold σ in Hv.
  destruct (on_only_for ty h σ Hv) as (r & Hu & Hr & Hown).
  destruct (on_appends ty h σ Hv) as (Happ & Hother & Hv1).
  split; [done|]. split.
  { unfold σ1, on. by destruct (typeHandlers σ !! ty). }
  intros σ2 σ3. subst σ3 u. rw Hu. split; [|done].
  intros ty' Hne. apply (unsubscribe_other_type r h ty); [|done].
  by apply only_for_run.
Qed.


(** ** Replay reaches the handlers *)





End BusStateFacts.

(* ===================================================================== *)
(** * Properties of the in-memory transport                                *)
(* ===================================================================== *)

Module MemoryTransportFacts.
Import MemoryTransport.

Lemma set_add_elem (h x : nat) (subs : Subscribers) :
  x ∈ set_add h subs ↔ x = h ∨ x ∈ subs.
Proof.
  unfold set_add. destruct (decide (h ∈ subs)) as [Hin|Hout].
  - split; [by right|]. by intros [->|?].
  - rw elem_of_app list_elem_of_singleton. tauto.
Qed.

Lemma set_add_NoDup (h : nat) (subs : Subscribers) :
  NoDup subs → NoDup (set_add h subs).
Proof.
  intros Hnd. unfold set_add. destruct (decide (h ∈ subs)) as [Hin|Hout]; [done|].
  apply NoDup_app. split; [done|]. split; [|apply NoDup_singleton].
  intros x Hx ->%list_elem_of_singleton. done.
Qed.

Lemma set_delete_elem (h x : nat) (subs : Subscribers) :
  x ∈ set_delete h subs ↔ x ≠ h ∧ x ∈ subs.
Proof. unfold set_delete. by rw list_elem_of_filter. Qed.

Lemma set_delete_absent (h : nat) (subs : Subscribers) :
  h ∉ subs → set_delete h subs = subs.
Proof.
  intros Hout. unfold set_delete. induction subs as [|x subs IH]; [done|].
  apply not_elem_of_cons in Hout as [Hne Hout].
  rw filter_cons_True; [|done]. by rw IH.
Qed.

Lemma set_delete_app (h : nat) (l1 l2 : Subscribers) :
  set_delete h (l1 ++ l2) = set_delete h l1 ++ set_delete h l2.
Proof. apply filter_app. Qed.

Lemma run_NoDup (ops : list Op) (subs : Subscribers) :
  NoDup subs → NoDup (run ops subs).
Proof.
  revert subs. induction ops as [|op ops IH]; intros subs Hnd; [done|].
  apply IH. destruct op as [h|c]; simpl.
  - by apply set_add_NoDup.
  - by apply NoDup_filter.
Qed.

(** X8.  The subscribers of the memory transport form a set.  However the
    transport was used before: subscribing a function that is already
    subscribed changes nothing, so it is still delivered to once and keeps
    its place; one call of an unsubscribe removes its function entirely,
    whichever of the [subscribe] calls returned it, and a second call
    changes nothing; unsubscribing right after a first subscription gives
    back the set as it was; no function is ever held twice. *)
Theorem subscribers_form_a_set (ops : list Op) (h : nat) :
  let subs := run ops createMemoryTransport in
  let '(u, subs1) := subscribe h subs in
  let '(u', subs2) := subscribe h subs1 in
  NoDup subs ∧
  subs2 = subs1 ∧
  (h ∈ subs → subs1 = subs) ∧
  (h ∉ subs → subs1 = subs ++ [h]) ∧
  (h ∉ call_unsubscribe u subs2) ∧
  call_unsubscribe u' subs2 = call_unsubscribe u subs2 ∧
  call_unsubscribe u (call_unsubscribe u subs2) = call_unsubscribe u subs2 ∧
  (∀ x, x ≠ h → (x ∈ call_unsubscribe u subs2 ↔ x ∈ subs)) ∧
  (h ∉ subs → call_unsubscribe u subs1 = subs).
Proof.
  intros subs. simpl.
  assert (NoDup subs) as Hnd by apply run_NoDup, NoDup_nil_2.
  assert (set_add h (set_add h subs) = set_add h subs) as Htwice.
  { unfold set_add at 1. rw decide_True; [done|]. apply set_add_elem. by left. }
  unfold call_unsubscribe. rw Htwice.
  split; [done|]. split; [done|].
  split; [by intros Hin; unfold set_add; rw decide_True|].
  split; [by intros Hout; unfold set_add; rw decide_False|].
  split; [by rw set_delete_elem; intros [? _]|].
  split; [done|].
  split; [apply set_delete_absent; by rw set_delete_elem; intros [? _]|].
  split.
  - intros x Hne. rw set_delete_elem set_add_elem. tauto.
  - intros Hout. unfold set_add. rw decide_False; [|done].
    rw set_delete_app (set_delete_absent h subs Hout).
    unfold set_delete. rw filter_cons_False; [by rw app_nil_r|]. by intros ?.
Qed.

Lemma emit_app {St : Type} (call : nat → Bus.Signal → St → Result unit * St)
    (l1 l2 : Subscribers) (s : Bus.Signal) (σ : St) :
  emit call (l1 ++ l2) s σ =
    match emit call l1 s σ with
    | (Resolved _, σ') => emit call l2 s σ'
    | (Rejected e, σ') => (Rejected e, σ')
    end.
Proof.
  revert σ. induction l1 as [|h l1 IH]; intros σ; [done|].
  simpl. destruct (call h s σ) as [[[]|e] σ']; [apply IH|done].
Qed.

(** X9.  [emit] of the memory transport calls the subscribers one after
    the other in subscription order and stops at the first that rejects:
    [emit] then rejects with that error, in the state that subscriber left,
    and no later subscriber is called.  Without subscribers it resolves and
    does nothing.  With the bus's [processSignal] as the only subscriber it
    is what the bus model runs as its default transport. *)
Theorem emit_delivers_until_rejection {St : Type}
    (call : nat → Bus.Signal → St → Result unit * St)
    (before after : Subscribers) (h : nat) (s : Bus.Signal) (σ σ1 : St) :
  emit call before s σ = (Resolved tt, σ1) →
  (∀ e σ2, call h s σ1 = (Rejected e, σ2) →
           emit call (before ++ h :: after) s σ = (Rejected e, σ2)) ∧
  (∀ σ2, call h s σ1 = (Resolved tt, σ2) →
         emit call (before ++ h :: after) s σ = emit call after s σ2) ∧
  emit call createMemoryTransport s σ = (Resolved tt, σ) ∧
  (∀ (o : Bus.Options) (β : Bus.State),
     emit (fun _ s => Bus.processSignal o s) [h] s β =
       Bus.run_prog (Bus.createMemoryTransport s) (Bus.processSignal o s) β).
Proof.
  intros Hbefore. split; [|split; [|split]].
  - intros e σ2 Hh. by rw emit_app Hbefore /= Hh.
  - intros σ2 Hh. by rw emit_app Hbefore /= Hh.
  - done.
  - intros o β. rw BusFacts.run_memory_transport /=.
    by destruct (Bus.processSignal o s β) as [[[]|e] β'].
Qed.

Lemma emit_delivers_until_rejection_witness :
  emit (fun h _ (n : nat) =>
          if (h =? 2)%nat then (Rejected "boom", S n) else (Resolved tt, S n))
       [1%nat; 2%nat; 3%nat] Examples.sig_x 0%nat = (Rejected "boom", 2%nat).
Proof.
  pose proof (emit_delivers_until_rejection
                (fun h _ (n : nat) =>
                   if (h =? 2)%nat then (Rejected "boom", S n)
                   else (Resolved tt, S n))
                [1%nat] [3%nat] 2%nat Examples.sig_x 0%nat 1%nat eq_refl)
    as (Hrej & _).
  exact (Hrej "boom" 2%nat eq_refl).
Defined.

End MemoryTransportFacts.

(* ===================================================================== *)
(** * Laws of the test clock's interface                                   *)
(* ===================================================================== *)

Module TestClockLaws.
Import TestClock TestClockFacts.

(** ** [tick] *)






(** ** Virtual time *)

Lemma total_app (xs ys : list Z) : total (xs ++ ys) = total xs + total ys.
Proof. induction xs as [|x xs IH]; simpl; lia. Qed.




(** ** The numbers reported by [stats] *)







(** ** A handler that throws *)






(** ** A stopped clock *)

Lemma test_stopped_step (perf : nat → Q) (op : Op) (σ : State) :
  not_start op → _running σ = false →
  _running (step perf op σ).2 = false ∧
  fired (step perf op σ).2 = fired σ ∧
  (step perf op σ).1 =
    match op with
    | OpTick _ | OpAdvanceBy _ | OpFlush => Rejected "Clock not running"
    | _ => Resolved tt
    end ∧
  (keeps_numbering op → handler σ = None → accumulator σ = 0 →
   (step perf op σ).2 = σ).
Proof.
  intros Hop Hrun.
  destruct op as [h| |count|ms| |]; [done| | | | |]; simpl;
    rw /tick /advanceBy /flush ?Hrun /=; do 3 (split; [done|]); try done.
  intros _ Hh Hacc. destruct σ; simpl in *. by subst.
Qed.

(** X14.  After [stop], and until the next [start], a test clock calls no
    handler: [tick], [advanceBy] and [flush] reject with "Clock not
    running" and change nothing, [stop] and [reset] resolve, and no tick is
    handed over.  Without a [reset] among the calls the clock stays exactly
    as [stop] left it, so [stop] is idempotent and [seq], [now()] and the
    stats survive until the next [start]. *)
Theorem stopped_test_clock_fires_nothing (perf : nat → Q) (ops : list Op)
    (σ : State) :
  Forall not_start ops →
  let σ' := run perf ops (stop σ) in
  running σ' = false ∧
  ticks_since σ σ' = [] ∧
  results perf ops (stop σ) =
    (fun op => match op with
               | OpTick _ | OpAdvanceBy _ | OpFlush =>
                   Rejected "Clock not running"
               | _ => Resolved tt
               end) <$> ops ∧
  (Forall keeps_numbering ops →
   σ' = stop σ ∧ seq σ' = seq σ ∧ now σ' = now σ ∧ stats σ' = stats σ).
Proof.
  intros Hops σ'.
  assert (∀ τ, _running τ = false →
            _running (run perf ops τ) = false ∧
            fired (run perf ops τ) = fired τ ∧
            results perf ops τ =
              (fun op => match op with
                         | OpTick _ | OpAdvanceBy _ | OpFlush =>
                             Rejected "Clock not running"
                         | _ => Resolved tt
                         end) <$> ops ∧
            (Forall keeps_numbering ops → handler τ = None →
             accumulator τ = 0 → run perf ops τ = τ)) as Hall.
  { induction Hops as [|op ops Hop Hops IH]; intros τ Hτ; [done|].
    destruct (test_stopped_step perf op τ Hop Hτ) as (Hr & Hf & Hres & Hsame).
    destruct (IH _ Hr) as (Hr' & Hf' & Hres' & Hsame').
    rw test_run_cons /= Hres Hres' Hf' Hf.
    do 3 (split; [done|]).
    intros Hkeep Hh Hacc. apply Forall_cons in Hkeep as [Hk Hks].
    rw (Hsame Hk Hh Hacc) in Hsame' |- *. by apply Hsame'. }
  destruct (Hall (stop σ) eq_refl) as (Hr & Hf & Hres & Hsame).
  fold σ' in Hr, Hf, Hsame.
  change (fired (stop σ)) with (fired σ) in Hf.
  split; [done|].
  split; [by rw /ticks_since Hf -(length_fmap fst) drop_all|].
  split; [done|].
  intros Hkeep. by rw (Hsame Hkeep eq_refl eq_refl).
Qed.

Lemma stopped_test_clock_fires_nothing_witness :
  results Examples.perf [OpTick 2; OpStop; OpFlush]
          (stop Examples.used_test_clock) =
    [Rejected "Clock not running"; Resolved tt; Rejected "Clock not running"] ∧
  seq (run Examples.perf [OpTick 2; OpStop; OpFlush]
           (stop Examples.used_test_clock)) = 1%nat.
Proof.
  destruct (stopped_test_clock_fires_nothing Examples.perf
              [OpTick 2; OpStop; OpFlush] Examples.used_test_clock)
    as (_ & _ & Hres & Hsame).
  - by repeat constructor.
  - split; [exact Hres|].
    destruct Hsame as (_ & Hseq & _); [by repeat constructor|exact Hseq].
Defined.

End TestClockLaws.

(* ===================================================================== *)
(** * Laws of the bridge clock                                             *)
(* ===================================================================== *)

Module BridgeClockLaws.
Import BridgeClock BridgeClockFacts.

Lemma bridge_run_cons (wall : nat → Z) (op : Op) (ops : list Op) (σ : State) :
  run wall (op :: ops) σ = run wall ops (step wall op σ).2.
Proof. done. Qed.

Lemma failures_snoc (h : Clock.TickHandler) (past new : list Clock.Tick)
    (t : Clock.Tick) :
  failures h past (new ++ [t]) =
    (failures h past new +
     match Clock.awaited (h t (past ++ new)) with Some _ => 1 | None => 0 end)%nat.
Proof.
  revert past. induction new as [|x new IH]; intros past; simpl.
  - rw app_nil_r. lia.
  - rw IH -app_assoc /=. lia.
Qed.

Lemma rejecting_cons (s0 : Z) (r0 : option Err) (p : list (Z * option Err)) :
  rejecting ((s0, r0) :: p) =
    (match r0 with Some _ => 1 | None => 0 end + rejecting p)%nat.
Proof. unfold rejecting. by destruct r0. Qed.

Lemma rejecting_delete (p : list (Z * option Err)) (i : nat) (start : Z)
    (r : option Err) :
  p !! i = Some (start, r) →
  (rejecting (delete i p) + match r with Some _ => 1 | None => 0 end)%nat =
    rejecting p.
Proof.
  revert i. induction p as [|[s0 r0] p IH]; intros i Hi; [done|].
  destruct i as [|i]; simpl in Hi.
  - injection Hi as -> ->.
    change (delete 0%nat ((start, r) :: p)) with p.
    rw rejecting_cons. lia.
  - specialize (IH i Hi).
    change (delete (S i) ((s0, r0) :: p)) with ((s0, r0) :: delete i p).
    rw !rejecting_cons. lia.
Qed.

(** What one operation of an epoch does to the error count. *)
Lemma step_counts_failures (wall : nat → Z) (h : Clock.TickHandler)
    (past : list Clock.Tick) (op : Op) (σ : State) :
  keeps_epoch op →
  (∀ h', handler σ = Some h' → h' = h) →
  past `prefix_of` fired σ →
  let σ' := (step wall op σ).2 in
  (∀ h', handler σ' = Some h' → h' = h) ∧
  past `prefix_of` fired σ' ∧
  (errors σ' + rejecting (pending σ'))%nat =
    (errors σ + rejecting (pending σ) +
     failures h (fired σ) (drop (length (fired σ)) (fired σ')))%nat.
Proof.
  intros Hop Hh [new Hpast] σ'. subst σ'.
  destruct op as [h0| | |i]; [done| | |]; simpl.
  - split; [done|]. split; [by exists new|]. rw drop_all /=. lia.
  - unfold push. destruct (_running σ); [|
      split; [done|]; split; [by exists new|]; rw drop_all /=; lia].
    destruct (handler σ) as [h'|] eqn:Hh'; [|
      simpl; rw Hh'; split; [done|]; split; [by exists new|];
      rw drop_all /=; lia].
    rw (Hh h' eq_refl). unfold call_handler, rejecting.
    set (tick := Clock.mkTick _ _ _ _).
    destruct (h tick (fired σ)) as [|e|[e|]] eqn:Hcall; simpl;
      (split; [by intros ? [= <-]|]);
      (split; [exists (new ++ [tick]); by rw Hpast app_assoc|]);
      rw drop_app_length /= ?Hcall /= ?omap_app ?length_app /=; lia.
  - unfold settle. destruct (pending σ !! i) as [[start r]|] eqn:Hi; [|
      split; [done|]; split; [by exists new|]; rw drop_all /=; lia].
    simpl. split; [done|]. split; [by exists new|].
    pose proof (rejecting_delete (pending σ) i start r Hi).
    rw drop_all /=. destruct r; lia.
Qed.

Lemma failures_app (h : Clock.TickHandler) (past n1 n2 : list Clock.Tick) :
  failures h past (n1 ++ n2) =
    (failures h past n1 + failures h (past ++ n1) n2)%nat.
Proof.
  revert past. induction n1 as [|x n1 IH]; intros past; simpl.
  - by rw app_nil_r.
  - rw IH -app_assoc /=. lia.
Qed.

Lemma run_counts_failures (wall : nat → Z) (h : Clock.TickHandler)
    (ops : list Op) (σ : State) :
  Forall keeps_epoch ops →
  (∀ h', handler σ = Some h' → h' = h) →
  let σ' := run wall ops σ in
  fired σ `prefix_of` fired σ' ∧
  (errors σ' + rejecting (pending σ'))%nat =
    (errors σ + rejecting (pending σ) +
     failures h (fired σ) (ticks_since σ σ'))%nat.
Proof.
  intros Hops. revert σ.
  induction Hops as [|op ops Hop Hops IH]; intros σ Hh σ'; subst σ'.
  { unfold ticks_since. rw /= drop_all /=. split; [done|lia]. }
  rw bridge_run_cons.
  destruct (step_counts_failures wall h (fired σ) op σ Hop Hh)
    as (Hh1 & [n1 Hf1] & Hc1); [done|].
  destruct (IH (step wall op σ).2 Hh1) as ([n2 Hf2] & Hc2).
  split; [exists (n1 ++ n2); by rw Hf2 Hf1 app_assoc|].
  rw Hc2 Hc1. unfold ticks_since.
  rw Hf2 Hf1 !drop_app_length -app_assoc drop_app_length failures_app. lia.
Qed.

(** X15.  A bridge clock counts every failed handler call once, whether
    the handler threw or returned a promise that rejected later.  When the
    clock is started with no promise of an earlier epoch outstanding, then
    at any moment of the epoch (pushes, settlements, also after [stop])
    [errors] plus the number of outstanding promises that will reject
    equals the number of failed calls among the ticks handed over; once
    every promise has settled, [stats().errors] is that number. *)
Theorem bridge_counts_each_failure_once (wall : nat → Z)
    (h : Clock.TickHandler) (ops : list Op) (σ : State) :
  _running σ = false → pending σ = [] → Forall keeps_epoch ops →
  let σ0 := (start h σ).2 in
  let σ' := run wall ops σ0 in
  (errors σ' + rejecting (pending σ'))%nat =
    failures h (fired σ) (ticks_since σ0 σ') ∧
  (pending σ' = [] →
   Clock.errors (stats σ') = failures h (fired σ) (ticks_since σ0 σ')).
Proof.
  intros Hrun Hpend Hops σ0 σ'.
  assert (σ0 = mkState (Some h) true 0 0 0 0 0 0 (wall_reads σ) (fired σ)
                       (pending σ)) as Hσ0.
  { subst σ0. unfold start. by rw Hrun. }
  destruct (run_counts_failures wall h ops σ0 Hops) as [_ Hc].
  { rw Hσ0 /=. by intros h' [= <-]. }
  fold σ' in Hc.
  assert ((errors σ' + rejecting (pending σ'))%nat =
          failures h (fired σ) (ticks_since σ0 σ')) as Hsum.
  { assert (errors σ0 = 0%nat ∧ pending σ0 = [] ∧ fired σ0 = fired σ)
      as (He0 & Hp0 & Hf0) by by rw Hσ0.
    by rw Hc He0 Hp0 Hf0. }
  split; [done|]. intros Hnone. rw Hnone in Hsum.
  change (rejecting []) with 0%nat in Hsum.
  change (Clock.errors (stats σ')) with (errors σ'). lia.
Qed.

Lemma bridge_counts_each_failure_once_witness :
  Clock.errors
    (stats (run Examples.wall [OpPush; OpPush]
                (start Examples.boom_handler createBridgeClock).2)) = 2%nat.
Proof.
  destruct (bridge_counts_each_failure_once Examples.wall Examples.boom_handler
              [OpPush; OpPush] createBridgeClock) as [_ Hdone].
  - reflexivity.
  - reflexivity.
  - by repeat constructor.
  - exact (Hdone eq_refl).
Defined.





End BridgeClockLaws.

(* ===================================================================== *)
(** * Laws of the interval clock's tick procedure                          *)
(* ===================================================================== *)

Module IntervalClockLaws.
Import IntervalClock IntervalClockFacts.






End IntervalClockLaws.
